(** * Phps_sms: a shallow embedding of [phps_sms/sms.py]

    The module is a small SMS client: a recipient-number normaliser
    ([_valid_tr_to]), a message slicer ([_slice_tr_txtmsg]), a response
    decoder ([_decode_response]) and the [SMS] class with its queue
    ([add], [get], [send]).

    Python values are modelled as follows.
    - [str]   : a list of Unicode code points ([Z]);
    - [bytes] : a list of byte values ([Z], each in 0..255);
    - exceptions : the type [exn]; a call that may raise returns a [result];
    - the [SMS] object : a record; a method takes the object and returns
      the outcome together with the object after the call.

    What the interpreter and the third-party packages supply (the Unicode
    database, the euc-kr mapping tables, [phpserialize.loads],
    [requests.post], the clock) is not part of the repository.  The
    algorithms of the interpreter that matter here (the backtracking
    matcher of [re], the euc-kr encoder and decoder, the UTF-8 decoder) are
    written out; their data tables and the outside world are section
    variables.  [view] and [cancel] (one POST each, the response decoded
    by [_decode_response]) and the address lookup of the constructor are
    left out. *)

From Stdlib Require Import ZArith Bool String Ascii List Lia.
Import ListNotations.

#[local] Open Scope Z_scope.
#[local] Set Warnings "-register-all".

(** ** Python values *)

Definition char := Z.
Definition str := list char.
Definition bytes := list Z.

(** A [str] literal of the source, written as a Rocq string. *)
Definition lit (s : string) : str :=
  map (fun a => Z.of_nat (nat_of_ascii a)) (list_ascii_of_string s).

Definition len {A} (l : list A) : Z := Z.of_nat (List.length l).

(** ** Exceptions

    [SMSError] is the module's own exception class (it carries a message);
    the others are raised by the interpreter or by the packages the module
    calls. *)

Inductive exn :=
| SMSError (message : str)
| UnicodeEncodeError
| UnicodeDecodeError
| AttributeError
| TypeError
| LibraryError (name : string).

Inductive result (A : Type) :=
| Ok (a : A)
| Raise (e : exn).

Arguments Ok {A} a.
Arguments Raise {A} e.

Definition bind {A B} (r : result A) (f : A -> result B) : result B :=
  match r with
  | Ok a => f a
  | Raise e => Raise e
  end.

Notation "x <- r ;; k" := (bind r (fun x => k))
  (at level 61, r at next level, right associativity).

(** ** [str.strip()]

    Without an argument [strip] removes the characters for which
    [str.isspace] holds from both ends. *)

Definition isspace (c : char) : bool :=
  ((0x09 <=? c) && (c <=? 0x0D)) || ((0x1C <=? c) && (c <=? 0x20))
  || (c =? 0x85) || (c =? 0xA0) || (c =? 0x1680)
  || ((0x2000 <=? c) && (c <=? 0x200A))
  || (c =? 0x2028) || (c =? 0x2029) || (c =? 0x202F) || (c =? 0x205F)
  || (c =? 0x3000).

Fixpoint lstrip (s : str) : str :=
  match s with
  | [] => []
  | c :: s' => if isspace c then lstrip s' else s
  end.

Definition rstrip (s : str) : str := rev (lstrip (rev s)).

Definition strip (s : str) : str := rstrip (lstrip s).

(** ** The [re] module: a backtracking matcher

    Only the constructs [PATTERN_NUM] uses: the anchors, a character set,
    sequencing, greedy bounded repetition ([?] is [{0,1}]) and named
    groups.  [rmatch] is the matcher in continuation-passing style: the
    continuation is tried on what is left of the input, and an alternative
    is taken only when the continuation fails (backtracking). *)

Inductive regex :=
| RBegin
| REnd
| RSet (p : char -> bool)
| RSeq (r1 r2 : regex)
| RRepeat (lo hi : nat) (r : regex)
| RGroup (name : string) (r : regex).

Definition groups := list (string * str).

Fixpoint group (name : string) (g : groups) : option str :=
  match g with
  | [] => None
  | (n, v) :: g' => if String.eqb n name then Some v else group name g'
  end.

Definition cont := nat -> str -> groups -> option groups.

(** Greedy repetition [{lo,hi}] of the matcher [m]: one more iteration is
    tried first; when what follows fails, the repetition stops here,
    provided [lo] iterations have been made. *)
Fixpoint rep_greedy (m : nat -> str -> groups -> cont -> option groups)
  (k : cont) (lo hi : nat) (pos : nat) (s : str) (g : groups) {struct hi}
  : option groups :=
  match hi with
  | O => k pos s g
  | S hi' =>
      match m pos s g (rep_greedy m k (Nat.pred lo) hi') with
      | Some g' => Some g'
      | None => if Nat.eqb lo 0 then k pos s g else None
      end
  end.

Fixpoint rmatch (r : regex) (pos : nat) (s : str) (g : groups) (k : cont)
  : option groups :=
  match r with
  | RBegin => if Nat.eqb pos 0 then k pos s g else None
  | REnd =>
      match s with
      | [] => k pos s g
      | [c] => if c =? 10 then k pos s g else None
      | _ => None
      end
  | RSet p =>
      match s with
      | c :: s' => if p c then k (S pos) s' g else None
      | [] => None
      end
  | RSeq r1 r2 =>
      rmatch r1 pos s g (fun pos' s' g' => rmatch r2 pos' s' g' k)
  | RRepeat lo hi r1 => rep_greedy (rmatch r1) k lo hi pos s g
  | RGroup name r1 =>
      rmatch r1 pos s g
        (fun pos' s' g' => k pos' s' ((name, firstn (pos' - pos) s) :: g'))
  end.

(** [pattern.match(s)]: the pattern is tried at position 0 only. *)
Definition re_match (r : regex) (s : str) : option groups :=
  rmatch r 0 s [] (fun _ _ g => Some g).

(** The matches the matcher can find, as a relation: [matches r pos s1 rest
    g g'] says that [r], tried at position [pos] on the input
    [s1 ++ rest], can consume [s1], turning the groups [g] into [g']. *)
Inductive matches : regex -> nat -> str -> str -> groups -> groups -> Prop :=
| MBegin rest g : matches RBegin 0 [] rest g g
| MEnd pos rest g :
    rest = [] \/ rest = [10] -> matches REnd pos [] rest g g
| MSet p pos c rest g :
    p c = true -> matches (RSet p) pos [c] rest g g
| MSeq r1 r2 pos s1 s2 rest g g1 g2 :
    matches r1 pos s1 (s2 ++ rest) g g1 ->
    matches r2 (pos + List.length s1)%nat s2 rest g1 g2 ->
    matches (RSeq r1 r2) pos (s1 ++ s2) rest g g2
| MRepeatStop lo hi r pos rest g :
    hi = O \/ lo = O -> matches (RRepeat lo hi r) pos [] rest g g
| MRepeatStep lo hi r pos s1 s2 rest g g1 g2 :
    matches r pos s1 (s2 ++ rest) g g1 ->
    matches (RRepeat (Nat.pred lo) hi r) (pos + List.length s1)%nat s2 rest g1 g2 ->
    matches (RRepeat lo (S hi) r) pos (s1 ++ s2) rest g g2
| MGroup name r pos s1 rest g g1 :
    matches r pos s1 rest g g1 ->
    matches (RGroup name r) pos s1 rest g ((name, s1) :: g1).

(** The matcher [m] finds only matches of [r]. *)
Definition sound_at (r : regex)
  (m : nat -> str -> groups -> cont -> option groups) : Prop :=
  forall pos s g k out,
    m pos s g k = Some out ->
    exists s1 s2 g1,
      s = s1 ++ s2 /\ matches r pos s1 s2 g g1 /\
      k (pos + List.length s1)%nat s2 g1 = Some out.

(** ** The number normaliser *)

Section Normaliser.

(** The Unicode database's decimal-digit property (category Nd) outside
    ASCII, which [\d] consults for a [str] pattern. *)
Variable unicode_nd : char -> bool.

Definition isdecimal (c : char) : bool :=
  if c <? 128 then (48 <=? c) && (c <=? 57) else unicode_nd c.

(** The set [[\s\-\.]]. *)
Definition is_sep (c : char) : bool :=
  isspace c || (c =? 45) || (c =? 46).

Definition is_zero (c : char) : bool := c =? 48.

(** [r'^(?P<num0>0\d0)?[\s\-\.]?(?P<num1>\d{3,4})[\s\-\.]?(?P<num2>\d{4})$'] *)
Definition PATTERN_NUM : regex :=
  RSeq RBegin
  (RSeq (RRepeat 0 1
           (RGroup "num0" (RSeq (RSet is_zero)
                          (RSeq (RSet isdecimal) (RSet is_zero)))))
  (RSeq (RRepeat 0 1 (RSet is_sep))
  (RSeq (RGroup "num1" (RRepeat 3 4 (RSet isdecimal)))
  (RSeq (RRepeat 0 1 (RSet is_sep))
  (RSeq (RGroup "num2" (RRepeat 4 4 (RSet isdecimal)))
        REnd))))).

Definition InvalidNumber (tr_to : str) : exn :=
  SMSError (lit "`" ++ tr_to ++ lit "` is not correct number.").

(** [num_dict['num1']]: the value of a group that did not take part in
    the match is [None], and [str + None] raises [TypeError]. *)
Definition group_str (name : string) (g : groups) : result str :=
  match group name g with
  | Some v => Ok v
  | None => Raise TypeError
  end.

Definition _valid_tr_to (tr_to : str) : result str :=
  match re_match PATTERN_NUM (strip tr_to) with
  | None => Raise (InvalidNumber tr_to)
  | Some num_dict =>
      let num0 :=
        match group "num0" num_dict with
        | Some (c :: v) => c :: v
        | _ => lit "010"
        end in
      num1 <- group_str "num1" num_dict ;;
      num2 <- group_str "num2" num_dict ;;
      Ok (num0 ++ lit "-" ++ num1 ++ lit "-" ++ num2)
  end.

End Normaliser.

(** What [PATTERN_NUM] describes: a parse of the stripped input into the
    optional prefix, the two optional separators and the two digit
    groups. *)

Definition opt_sep (sep : str) : Prop :=
  sep = [] \/ exists c, is_sep c = true /\ sep = [c].

Definition opt_prefix (nd : char -> bool) (pre : str) : Prop :=
  pre = [] \/ exists d, isdecimal nd d = true /\ pre = [48; d; 48].

Definition number_parse (nd : char -> bool) (s pre sep1 mid sep2 fin : str)
  : Prop :=
  s = pre ++ sep1 ++ mid ++ sep2 ++ fin /\
  opt_prefix nd pre /\ opt_sep sep1 /\
  forallb (isdecimal nd) mid = true /\
  (List.length mid = 3 \/ List.length mid = 4)%nat /\
  opt_sep sep2 /\
  forallb (isdecimal nd) fin = true /\ List.length fin = 4%nat.

Definition number_shape (nd : char -> bool) (s : str) : Prop :=
  exists pre sep1 mid sep2 fin, number_parse nd s pre sep1 mid sep2 fin.

(** The groups a match along a parse sets, before [num1] and [num2]. *)
Definition prefix_groups (pre : str) : groups :=
  match pre with
  | [] => []
  | _ :: _ => [("num0"%string, pre)]
  end.

Definition count_digits (nd : char -> bool) (s : str) : nat :=
  List.length (filter (isdecimal nd) s).

(** The shape the words of the specification describe: a prefix of three
    digits of which only the first is fixed, and a space, a dash or a dot
    as a separator. *)
Definition claimed_sep (sep : str) : Prop :=
  sep = [] \/ sep = [32] \/ sep = [45] \/ sep = [46].

Definition claimed_prefix (nd : char -> bool) (pre : str) : Prop :=
  pre = [] \/
  exists d1 d2,
    isdecimal nd d1 = true /\ isdecimal nd d2 = true /\ pre = [48; d1; d2].

Definition claimed_number_shape (nd : char -> bool) (s : str) : Prop :=
  exists pre sep1 mid sep2 fin,
    s = pre ++ sep1 ++ mid ++ sep2 ++ fin /\
    claimed_prefix nd pre /\ claimed_sep sep1 /\
    forallb (isdecimal nd) mid = true /\
    (List.length mid = 3 \/ List.length mid = 4)%nat /\
    claimed_sep sep2 /\
    forallb (isdecimal nd) fin = true /\ List.length fin = 4%nat.

(** ** The legacy encoding: the interpreter's euc-kr codec

    [SERVER_ENCODING = 'euc-kr'].  The codec is stateless and works
    character by character.  A character below U+0080 is one byte; a
    character of KS X 1001 is two bytes; a Hangul syllable that only the
    CP949 extension has (its table entry has bit 15 set) is written as the
    eight-byte make-up sequence of KS X 1001:1998 Annex 3; anything else
    is an encoding error. *)

Definition EUCKR_JAMO_FIRSTBYTE : Z := 0xA4.
Definition EUCKR_JAMO_FILLER : Z := 0xD4.

Definition u2cgk_choseong : list Z :=
  [0xa1; 0xa2; 0xa4; 0xa7; 0xa8; 0xa9; 0xb1; 0xb2; 0xb3; 0xb5;
   0xb6; 0xb7; 0xb8; 0xb9; 0xba; 0xbb; 0xbc; 0xbd; 0xbe].

Definition u2cgk_jungseong : list Z :=
  [0xbf; 0xc0; 0xc1; 0xc2; 0xc3; 0xc4; 0xc5; 0xc6; 0xc7; 0xc8;
   0xc9; 0xca; 0xcb; 0xcc; 0xcd; 0xce; 0xcf; 0xd0; 0xd1; 0xd2; 0xd3].

Definition u2cgk_jongseong : list Z :=
  [0xd4; 0xa1; 0xa2; 0xa3; 0xa4; 0xa5; 0xa6; 0xa7; 0xa9; 0xaa;
   0xab; 0xac; 0xad; 0xae; 0xaf; 0xb0; 0xb1; 0xb2; 0xb4; 0xb5;
   0xb6; 0xb7; 0xb8; 0xba; 0xbb; 0xbc; 0xbd; 0xbe].

Definition table_at (t : list Z) (i : Z) : Z := nth (Z.to_nat i) t 0.

(** The inverse tables [cgk2u_choseong] and [cgk2u_jongseong]: the index
    of a jamo byte, or nothing where the interpreter's table holds NONE. *)
Fixpoint index_of (b : Z) (t : list Z) : option Z :=
  match t with
  | [] => None
  | x :: t' => if x =? b then Some 0 else option_map Z.succ (index_of b t')
  end.

Definition cgk2u_choseong (b : Z) : option Z := index_of b u2cgk_choseong.
Definition cgk2u_jongseong (b : Z) : option Z := index_of b u2cgk_jongseong.

Section Codec.

(** The mapping tables of the interpreter: [cp949_encmap c] is the 16-bit
    code [TRYMAP_ENC(cp949, code, c)] finds, [ksx1001_decmap c1 c2] the
    character [TRYMAP_DEC(ksx1001, decoded, c1, c2)] finds. *)
Variable cp949_encmap : char -> option Z.
Variable ksx1001_decmap : Z -> Z -> option char.

Definition euc_kr_encode_char (c : char) : option bytes :=
  if c <? 0x80 then Some [c]
  else if 0xFFFF <? c then None
  else
    match cp949_encmap c with
    | None => None
    | Some code =>
        if Z.land code 0x8000 =? 0 then
          Some [Z.lor (Z.shiftr code 8) 0x80; Z.lor (Z.land code 0xFF) 0x80]
        else
          let c := c - 0xac00 in
          Some [EUCKR_JAMO_FIRSTBYTE; EUCKR_JAMO_FILLER;
                EUCKR_JAMO_FIRSTBYTE; table_at u2cgk_choseong (c / 588);
                EUCKR_JAMO_FIRSTBYTE;
                table_at u2cgk_jungseong ((c / 28) mod 21);
                EUCKR_JAMO_FIRSTBYTE; table_at u2cgk_jongseong (c mod 28)]
    end.

(** [s.encode('euc-kr')] with the default error handler [strict]. *)
Fixpoint euc_kr_encode (s : str) : result bytes :=
  match s with
  | [] => Ok []
  | c :: s' =>
      match euc_kr_encode_char c with
      | None => Raise UnicodeEncodeError
      | Some e => e' <- euc_kr_encode s' ;; Ok (e ++ e')
      end
  end.

Definition decode_makeup (b3 b5 b7 : Z) : option char :=
  let cho :=
    if (0xa1 <=? b3) && (b3 <=? 0xbe) then cgk2u_choseong b3 else None in
  let jung :=
    if (0xbf <=? b5) && (b5 <=? 0xd3) then Some (b5 - 0xbf) else None in
  let jong :=
    if b7 =? EUCKR_JAMO_FILLER then Some 0
    else if (0xa1 <=? b7) && (b7 <=? 0xbe) then cgk2u_jongseong b7
    else None in
  match cho, jung, jong with
  | Some cho, Some jung, Some jong =>
      Some (0xac00 + cho * 588 + jung * 28 + jong)
  | _, _, _ => None
  end.

(** [b.decode('euc-kr')], strict. *)
Fixpoint euc_kr_decode (b : bytes) : result str :=
  match b with
  | [] => Ok []
  | c :: b1 =>
      if c <? 0x80 then s <- euc_kr_decode b1 ;; Ok (c :: s)
      else
        match b1 with
        | [] => Raise UnicodeDecodeError
        | c2 :: b2 =>
            if (c =? EUCKR_JAMO_FIRSTBYTE) && (c2 =? EUCKR_JAMO_FILLER) then
              match b2 with
              | c3 :: c4 :: c5 :: c6 :: c7 :: c8 :: b8 =>
                  if negb (c3 =? EUCKR_JAMO_FIRSTBYTE)
                     || negb (c5 =? EUCKR_JAMO_FIRSTBYTE)
                     || negb (c7 =? EUCKR_JAMO_FIRSTBYTE)
                  then Raise UnicodeDecodeError
                  else
                    match decode_makeup c4 c6 c8 with
                    | None => Raise UnicodeDecodeError
                    | Some ch => s <- euc_kr_decode b8 ;; Ok (ch :: s)
                    end
              | _ => Raise UnicodeDecodeError
              end
            else
              match ksx1001_decmap (Z.lxor c 0x80) (Z.lxor c2 0x80) with
              | Some ch => s <- euc_kr_decode b2 ;; Ok (ch :: s)
              | None => Raise UnicodeDecodeError
              end
        end
  end.

(** The number of bytes of a character (0 when it has no encoding). *)
Definition width (c : char) : Z :=
  match euc_kr_encode_char c with
  | Some e => len e
  | None => 0
  end.

Fixpoint widths (s : str) : Z :=
  match s with
  | [] => 0
  | c :: s' => width c + widths s'
  end.

Definition encodable (c : char) : bool :=
  match euc_kr_encode_char c with
  | Some _ => true
  | None => false
  end.

(** A character of one or two bytes. *)
Definition narrow (c : char) : bool := encodable c && (width c <=? 2).

(** The character is encoded, and its bytes decode to it. *)
Definition decodes_back (c : char) : bool :=
  match euc_kr_encode_char c with
  | Some e =>
      match euc_kr_decode e with
      | Ok [c'] => c' =? c
      | _ => false
      end
  | None => false
  end.

(** ** The message slicer *)

(** The [while txt_list:] loop; [popped] and [temp_sliced] are the two
    lists the loop updates. *)
Fixpoint slice_loop (txt_list popped : str) (temp_sliced : list bytes)
  : result (str * list bytes) :=
  match txt_list with
  | [] => Ok (popped, temp_sliced)
  | c :: txt_list =>
      let popped := popped ++ [c] in
      if 44 <? len popped then
        e <- euc_kr_encode popped ;;
        let l := len e in
        if (l =? 89) || (l =? 90)
        then slice_loop txt_list [] (temp_sliced ++ [e])
        else slice_loop txt_list popped temp_sliced
      else slice_loop txt_list popped temp_sliced
  end.

Definition _slice_tr_txtmsg (tr_txtmsg : str) : result (list bytes) :=
  st <- slice_loop tr_txtmsg [] [] ;;
  let '(popped, temp_sliced) := st in
  match popped with
  | [] => Ok temp_sliced
  | _ :: _ => e <- euc_kr_encode popped ;; Ok (temp_sliced ++ [e])
  end.

(** Decoding every segment and joining the texts, as a reader of the
    segments would. *)
Fixpoint decode_join (segments : list bytes) : result str :=
  match segments with
  | [] => Ok []
  | e :: rest =>
      t <- euc_kr_decode e ;; ts <- decode_join rest ;; Ok (t ++ ts)
  end.

(** [segments_of chunks segs]: the segments are the encodings of the
    chunks, one by one. *)
Definition segments_of (chunks : list str) (segs : list bytes) : Prop :=
  Forall2 (fun ch e => euc_kr_encode ch = Ok e) chunks segs.

End Codec.

(** The total length of the segments. *)
Fixpoint total_len (segs : list bytes) : Z :=
  match segs with
  | [] => 0
  | e :: rest => len e + total_len rest
  end.

(** ** UTF-8

    [b.decode('utf-8')], strict: shortest forms only, no surrogates,
    nothing above U+10FFFF. *)

Definition is_cont (b : Z) : bool := (0x80 <=? b) && (b <=? 0xBF).

Definition in_range (lo hi b : Z) : bool := (lo <=? b) && (b <=? hi).

Fixpoint utf8_decode (b : bytes) : option str :=
  match b with
  | [] => Some []
  | b0 :: r0 =>
      if in_range 0 0x7F b0 then option_map (cons b0) (utf8_decode r0)
      else
        match r0 with
        | [] => None
        | b1 :: r1 =>
            if in_range 0xC2 0xDF b0 then
              if is_cont b1 then
                option_map (cons ((b0 - 0xC0) * 64 + (b1 - 0x80)))
                           (utf8_decode r1)
              else None
            else
              match r1 with
              | [] => None
              | b2 :: r2 =>
                  if in_range 0xE0 0xEF b0 then
                    if in_range (if b0 =? 0xE0 then 0xA0 else 0x80)
                                (if b0 =? 0xED then 0x9F else 0xBF) b1
                       && is_cont b2
                    then
                      option_map
                        (cons ((b0 - 0xE0) * 4096 + (b1 - 0x80) * 64
                               + (b2 - 0x80)))
                        (utf8_decode r2)
                    else None
                  else
                    match r2 with
                    | [] => None
                    | b3 :: r3 =>
                        if in_range 0xF0 0xF4 b0
                           && in_range (if b0 =? 0xF0 then 0x90 else 0x80)
                                       (if b0 =? 0xF4 then 0x8F else 0xBF) b1
                           && is_cont b2 && is_cont b3
                        then
                          option_map
                            (cons ((b0 - 0xF0) * 262144 + (b1 - 0x80) * 4096
                                   + (b2 - 0x80) * 64 + (b3 - 0x80)))
                            (utf8_decode r3)
                        else None
                    end
              end
        end
  end.

(** ** The response decoder

    What [phpserialize.loads] returns: [None], a [bool], an [int], a
    [float] (kept as the digits of the serialised form), a [bytes], or a
    [dict] whose keys are [int] or [bytes].  [PStr] and [KStr] are the
    [str] values the decoder itself produces.  A [dict] is its list of
    items in insertion order. *)

Inductive pkey :=
| KInt (i : Z)
| KBytes (b : bytes)
| KStr (s : str).

Inductive pval :=
| PNone
| PBool (b : bool)
| PInt (i : Z)
| PFloat (digits : bytes)
| PBytes (b : bytes)
| PStr (s : str)
| PDict (items : list (pkey * pval)).

Definition pdict := list (pkey * pval).

Definition list_eqb (l1 l2 : list Z) : bool :=
  if list_eq_dec Z.eq_dec l1 l2 then true else false.

(** Python's [==] on keys: an [int], a [bytes] and a [str] are never
    equal to one another. *)
Definition pkey_eqb (k1 k2 : pkey) : bool :=
  match k1, k2 with
  | KInt i, KInt j => i =? j
  | KBytes a, KBytes b => list_eqb a b
  | KStr a, KStr b => list_eqb a b
  | _, _ => false
  end.

Fixpoint dict_get (k : pkey) (d : pdict) : option pval :=
  match d with
  | [] => None
  | (k', v) :: d' => if pkey_eqb k' k then Some v else dict_get k d'
  end.

(** [d[k] = v]: the value of an existing key is replaced in place, a new
    key is added at the end. *)
Fixpoint dict_set (d : pdict) (k : pkey) (v : pval) : pdict :=
  match d with
  | [] => [(k, v)]
  | (k', v') :: d' =>
      if pkey_eqb k' k then (k', v) :: d' else (k', v') :: dict_set d' k v
  end.

(** [try: k = k.decode('utf-8') / except AttributeError: pass] : only a
    [bytes] has a [decode] method; the [UnicodeDecodeError] of a failed
    decoding is not caught. *)
Definition decode_key (k : pkey) : result pkey :=
  match k with
  | KBytes b =>
      match utf8_decode b with
      | Some s => Ok (KStr s)
      | None => Raise UnicodeDecodeError
      end
  | _ => Ok k
  end.

Definition decode_value (v : pval) : result pval :=
  match v with
  | PBytes b =>
      match utf8_decode b with
      | Some s => Ok (PStr s)
      | None => Raise UnicodeDecodeError
      end
  | _ => Ok v
  end.

(** The [for k, v in ....items():] loop, [r] being the dict it fills. *)
Fixpoint decode_items (items : pdict) (r : pdict) : result pdict :=
  match items with
  | [] => Ok r
  | (k, v) :: items =>
      k <- decode_key k ;;
      v <- decode_value v ;;
      decode_items items (dict_set r k v)
  end.

(** Whether [decode('utf-8')] succeeds on a key or a value that has the
    method. *)
Definition key_decodable (k : pkey) : bool :=
  match k with
  | KBytes b => match utf8_decode b with Some _ => true | None => false end
  | _ => true
  end.

Definition value_decodable (v : pval) : bool :=
  match v with
  | PBytes b => match utf8_decode b with Some _ => true | None => false end
  | _ => true
  end.

Definition item_decodable (kv : pkey * pval) : bool :=
  key_decodable (fst kv) && value_decodable (snd kv).

(** A key or a value as text when it decodes, kept as it is otherwise. *)
Definition key_text (k : pkey) : pkey :=
  match k with
  | KBytes b => match utf8_decode b with Some s => KStr s | None => k end
  | _ => k
  end.

Definition value_text (v : pval) : pval :=
  match v with
  | PBytes b => match utf8_decode b with Some s => PStr s | None => v end
  | _ => v
  end.

Definition item_text (kv : pkey * pval) : pkey * pval :=
  (key_text (fst kv), value_text (snd kv)).

(** [dict(items)]-style filling of a dict, item after item. *)
Definition dict_fill (r : pdict) (items : pdict) : pdict :=
  fold_left (fun r kv => dict_set r (fst kv) (snd kv)) items r.

Section Decoder.

(** [phpserialize.loads]; it raises on input that is not well formed. *)
Variable php_loads : bytes -> result pval.

Definition _decode_response (content : bytes) : result pdict :=
  v <- php_loads content ;;
  match v with
  | PDict items => decode_items items []
  | _ => Raise AttributeError
  end.

End Decoder.

(** ** State and exceptions

    A method of the client runs on a state, and either returns or raises;
    the state it leaves is part of the outcome in both cases. *)

Definition M (S A : Type) : Type := S -> result A * S.

Definition ret {S A} (a : A) : M S A := fun s => (Ok a, s).

Definition raise {S A} (e : exn) : M S A := fun s => (Raise e, s).

Definition bindM {S A B} (m : M S A) (f : A -> M S B) : M S B :=
  fun s =>
    match m s with
    | (Ok a, s') => f a s'
    | (Raise e, s') => (Raise e, s')
    end.

Definition lift {S A} (r : result A) : M S A := fun s => (r, s).

Notation "x <~ m ;; k" := (bindM m (fun x => k))
  (at level 61, m at next level, right associativity).

Fixpoint for_each {S A} (l : list A) (body : A -> M S unit) : M S unit :=
  match l with
  | [] => ret tt
  | a :: l' => _ <~ body a ;; for_each l' body
  end.

(** ** The client *)

Record SMSData := mkSMSData { tr_to : str; tr_txtmsg : bytes }.

Record SMS := mkSMS {
  tr_id : str;
  tr_key : str;
  tr_from : str;
  tr_ip : str;
  data : list SMSData
}.

(** [SMS(tr_id, tr_key, tr_from, tr_ip)] with the address given. *)
Definition SMS_init (tr_id tr_key tr_from tr_ip : str) : SMS :=
  mkSMS tr_id tr_key tr_from tr_ip [].

Definition with_data (self : SMS) (d : list SMSData) : SMS :=
  mkSMS (tr_id self) (tr_key self) (tr_from self) (tr_ip self) d.

(** [self.__data.append(x)] *)
Definition data_append (x : SMSData) : M SMS unit :=
  fun self => (Ok tt, with_data self (data self ++ [x])).

Definition EmptyMessage : exn := SMSError (lit "tr_txtmsg is empty.").
Definition MessageTooLong : exn := SMSError (lit "tr_txtmsg is too long.").
Definition EmptyQueue : exn := SMSError (lit "no data").
Definition SchedulingTooSoon : exn :=
  SMSError (lit "Message reservation must be longer than 3 minutes.").

Section Client.

Variable unicode_nd : char -> bool.
Variable cp949_encmap : char -> option Z.
Variable ksx1001_decmap : Z -> Z -> option char.

Definition add (tr_to : str) (tr_txtmsg : str) (auto_slice : bool)
  : M SMS unit :=
  tr_to <~ lift (_valid_tr_to unicode_nd tr_to) ;;
  txt_bytes <~ lift (euc_kr_encode cp949_encmap (strip tr_txtmsg)) ;;
  if len txt_bytes =? 0 then raise EmptyMessage
  else if 90 <? len txt_bytes then
    if negb auto_slice then raise MessageTooLong
    else
      sliced <~ lift (_slice_tr_txtmsg cp949_encmap tr_txtmsg) ;;
      for_each sliced
        (fun txt_bytes => data_append (mkSMSData tr_to txt_bytes))
  else data_append (mkSMSData tr_to txt_bytes).

(** [get()]: the queue with the bodies decoded. *)
Fixpoint get_items (d : list SMSData) : result (list (str * str)) :=
  match d with
  | [] => Ok []
  | x :: d' =>
      t <- euc_kr_decode ksx1001_decmap (tr_txtmsg x) ;;
      rest <- get_items d' ;;
      Ok ((tr_to x, t) :: rest)
  end.

Definition get : M SMS (list (str * str)) :=
  fun self => (get_items (data self), self).

(** *** Sending *)

(** A [datetime.datetime]: the time its fields show, in microseconds, and,
    when it is timezone-aware, its offset from UTC.  What
    [datetime.datetime.now()] returns is naive, and so is a naive time plus
    a [timedelta]; [<] between a naive and an aware time raises
    [TypeError]. *)
Inductive datetime :=
| Naive (t : Z)
| Aware (t : Z) (utcoffset : Z).

(** The [date] field of a request: the integer [0], or
    [tr_date.strftime('%Y-%m-%d %H:%M:%S')]. *)
Inductive date_field :=
| DateNow
| DateAt (tr_date : Z).

(** The [tr_comment] argument and the [msg] field. *)
Inductive comment :=
| CNone
| CStr (s : str)
| CBytes (b : bytes).

Record post_data := mkPost {
  adminuser : str;
  authkey : str;
  rphone : str;
  phone : str;
  sms : bytes;
  date : date_field;
  msg : comment;
  ip : str
}.

(** The gateway: its state, and what a POST does to it and returns (the
    body of the response, or the exception [requests.post] raises). *)
Variable Net : Type.
Variable gateway : Net -> post_data -> result bytes * Net.
Variable php_loads : bytes -> result pval.

(** The world outside the client: the gateway and the record of the POSTs
    made so far, each with what came back. *)
Record world := mkWorld {
  net : Net;
  posts : list (post_data * result bytes)
}.

Definition req_post (d : post_data) : M (SMS * world) bytes :=
  fun st =>
    let '(self, w) := st in
    let '(r, n) := gateway (net w) d in
    (r, (self, mkWorld n (posts w ++ [(d, r)]))).

Definition self_fields : M (SMS * world) SMS :=
  fun st => (Ok (fst st), st).

(** [self.__data.clear()] *)
Definition data_clear : M (SMS * world) unit :=
  fun st => (Ok tt, (with_data (fst st) [], snd st)).

(** The [for tr_to, tr_msgtxt_enc in self.__data:] loop; [result_list] is
    the list it appends to. *)
Fixpoint send_loop (self : SMS) (tr_date_str : date_field)
  (tr_comment : comment) (entries : list SMSData) (result_list : list pdict)
  : M (SMS * world) (list pdict) :=
  match entries with
  | [] => ret result_list
  | x :: entries =>
      let post :=
        mkPost (tr_id self) (tr_key self) (tr_from self)
               (tr_to x) (tr_txtmsg x) tr_date_str tr_comment (tr_ip self) in
      content <~ req_post post ;;
      r <~ lift (_decode_response php_loads content) ;;
      send_loop self tr_date_str tr_comment entries (result_list ++ [r])
  end.

(** [send(tr_date, tr_comment)]; [now] is the time of the naive
    [datetime.datetime.now()] of the call.  Times are in microseconds, so
    three minutes are 180000000.  The comparison of [tr_date] with the
    naive [now + 3 minutes] raises [TypeError] for an aware [tr_date]. *)
Definition send (now : Z) (tr_date : option datetime) (tr_comment : comment)
  : M (SMS * world) (list pdict) :=
  self <~ self_fields ;;
  match data self with
  | [] => raise EmptyQueue
  | _ :: _ =>
      tr_date_str <~
        match tr_date with
        | None => ret DateNow
        | Some (Aware _ _) => raise TypeError
        | Some (Naive t) =>
            if t <? now + 180000000 then raise SchedulingTooSoon
            else ret (DateAt t)
        end ;;
      tr_comment <~
        match tr_comment with
        | CNone => ret (CStr [])
        | CStr s =>
            e <~ lift (euc_kr_encode cp949_encmap s) ;; ret (CBytes e)
        | CBytes b => ret (CBytes b)
        end ;;
      result_list <~ send_loop self tr_date_str tr_comment (data self) [] ;;
      _ <~ data_clear ;;
      ret result_list
  end.

(** The request [send] makes for a queue entry. *)
Definition post_of (self : SMS) (tr_date_str : date_field)
  (tr_comment : comment) (x : SMSData) : post_data :=
  mkPost (tr_id self) (tr_key self) (tr_from self) (tr_to x) (tr_txtmsg x)
         tr_date_str tr_comment (tr_ip self).

(** The [date] and [msg] fields of the requests for given arguments. *)
Definition schedule (now : Z) (tr_date : option datetime)
  : result date_field :=
  match tr_date with
  | None => Ok DateNow
  | Some (Aware _ _) => Raise TypeError
  | Some (Naive t) =>
      if t <? now + 180000000 then Raise SchedulingTooSoon else Ok (DateAt t)
  end.

Definition comment_field (tr_comment : comment) : result comment :=
  match tr_comment with
  | CNone => Ok (CStr [])
  | CStr s => e <- euc_kr_encode cp949_encmap s ;; Ok (CBytes e)
  | CBytes b => Ok (CBytes b)
  end.

(** A POST of the record came back with a body that decodes to [r]. *)
Definition answered (p : post_data * result bytes) (r : pdict) : Prop :=
  exists content,
    snd p = Ok content /\ _decode_response php_loads content = Ok r.

(** A POST of the record raised, or its body did not decode. *)
Definition failed (p : post_data * result bytes) (e : exn) : Prop :=
  snd p = Raise e \/
  exists content,
    snd p = Ok content /\ _decode_response php_loads content = Raise e.

(** Every POST is answered with a body that decodes. *)
Definition reliable : Prop :=
  forall n p, exists content n' r,
    gateway n p = (Ok content, n') /\
    _decode_response php_loads content = Ok r.

End Client.

(** The bound on a queue entry. *)
Definition body_ok (x : SMSData) : Prop := 0 < len (tr_txtmsg x) <= 90.

(** ** Sample data

    Values of the section variables for the examples.  The digits: the
    Arabic-Indic and the fullwidth digits.  The mapping tables are an
    excerpt of the interpreter's: U+AC00, U+D55C and U+AE00 are syllables
    of KS X 1001, U+3164 is its Hangul filler, U+4E2D is one of its
    ideographs, and U+B620 is a syllable that only the CP949 extension has
    (its code has bit 15 set).  Outside ASCII, the texts the examples
    encode hold these characters only, and U+1F600 where a character
    without an encoding is needed: the codec refuses it whatever the
    tables hold. *)

Definition sample_nd (c : char) : bool :=
  ((0x0660 <=? c) && (c <=? 0x0669)) || ((0xFF10 <=? c) && (c <=? 0xFF19)).

Definition sample_encmap (c : char) : option Z :=
  if c =? 0xAC00 then Some 0x3021
  else if c =? 0xD55C then Some 0x4751
  else if c =? 0xAE00 then Some 0x315B
  else if c =? 0x3164 then Some 0x2454
  else if c =? 0xB620 then Some 0x8C63
  else if c =? 0x4E2D then Some 0x7169
  else None.

Definition sample_decmap (c1 c2 : Z) : option char :=
  if (c1 =? 0x30) && (c2 =? 0x21) then Some 0xAC00
  else if (c1 =? 0x47) && (c2 =? 0x51) then Some 0xD55C
  else if (c1 =? 0x31) && (c2 =? 0x5B) then Some 0xAE00
  else if (c1 =? 0x24) && (c2 =? 0x54) then Some 0x3164
  else if (c1 =? 0x71) && (c2 =? 0x69) then Some 0x4E2D
  else None.

Definition sample_sms : SMS :=
  SMS_init (lit "id") (lit "key") (lit "0212345678") (lit "127.0.0.1").

(** Twenty times "\uD55C\uAE00 sms ": 140 characters, 180 bytes. *)
Definition sample_text : str :=
  concat (repeat ([0xD55C; 0xAE00] ++ lit " sms ") 20).

(** What [phpserialize.loads] returns on three inputs:
    [a:2:{s:6:"result";s:2:"OK";s:3:"cnt";i:1;}],
    [a:1:{s:6:"result";s:5:"ERROR";}] and
    [a:1:{s:3:"msg";s:2:"\xc7\xd1";}] (the bytes C7 D1 are euc-kr, not
    UTF-8); any other input is taken as malformed. *)
Definition quoted (s : bytes) : bytes := [34] ++ s ++ [34].

Definition sample_reply_ok : bytes :=
  lit "a:2:{s:6:" ++ quoted (lit "result") ++ lit ";s:2:" ++ quoted (lit "OK")
  ++ lit ";s:3:" ++ quoted (lit "cnt") ++ lit ";i:1;}".

Definition sample_reply_error : bytes :=
  lit "a:1:{s:6:" ++ quoted (lit "result") ++ lit ";s:5:"
  ++ quoted (lit "ERROR") ++ lit ";}".

Definition sample_reply_euckr : bytes :=
  lit "a:1:{s:3:" ++ quoted (lit "msg") ++ lit ";s:2:" ++ quoted [0xC7; 0xD1]
  ++ lit ";}".

Definition sample_php_loads (content : bytes) : result pval :=
  if list_eqb content sample_reply_ok then
    Ok (PDict [(KBytes (lit "result"), PBytes (lit "OK"));
               (KBytes (lit "cnt"), PInt 1)])
  else if list_eqb content sample_reply_error then
    Ok (PDict [(KBytes (lit "result"), PBytes (lit "ERROR"))])
  else if list_eqb content sample_reply_euckr then
    Ok (PDict [(KBytes (lit "msg"), PBytes [0xC7; 0xD1])])
  else Raise (LibraryError "ValueError").

(** A queue of two entries, a gateway that answers every POST (the second
    answer reports an error of the application), and one whose connection
    fails at the second POST.  The state of a gateway is the number of
    POSTs it has received. *)
Definition sample_queue : SMS :=
  with_data sample_sms
    [mkSMSData (lit "010-1234-5678") (lit "hello");
     mkSMSData (lit "010-1234-5678") (lit "world")].

Definition sample_gateway (n : nat) (p : post_data) : result bytes * nat :=
  (Ok (if Nat.eqb n 1 then sample_reply_error else sample_reply_ok), S n).

Definition flaky_gateway (n : nat) (p : post_data) : result bytes * nat :=
  (if Nat.eqb n 1 then Raise (LibraryError "ConnectionError")
   else Ok sample_reply_ok, S n).

Definition sample_world : world nat := mkWorld nat O [].

(** ** The rest of the client: the constructor, [view] and [cancel] *)

(** [SMS(tr_id, tr_key, tr_from, tr_ip=None)]: the queue starts empty;
    without an address, the text of the answer of the address service is
    taken.  [ip_service] is what [req_get(IP_CHECK_URL).text] gives, or the
    exception the request raises. *)
Definition SMS_new (ip_service : result str) (tr_id tr_key tr_from : str)
  (tr_ip : option str) : result SMS :=
  match tr_ip with
  | None => ip <- ip_service ;; Ok (mkSMS tr_id tr_key tr_from ip [])
  | Some ip => Ok (mkSMS tr_id tr_key tr_from ip [])
  end.

(** The form data of a POST: the one of [send], of [view]
    ([adminuser], [authkey], [type = 'view']) and of [cancel]
    ([adminuser], [authkey], [date], [tr_num]; the date is the time that
    [strftime] formats). *)
Inductive request :=
| SendData (p : post_data)
| ViewData (adminuser authkey : str)
| CancelData (adminuser authkey : str) (date : Z) (tr_num : Z).

(** One day, in microseconds. *)
Definition one_day : Z := 86400000000.

Section Admin.

(** The gateway as [view] and [cancel] see it. *)
Variable Net : Type.
Variable server : Net -> request -> result bytes * Net.
Variable php_loads : bytes -> result pval.

Record gworld := mkGWorld {
  gnet : Net;
  requests : list (request * result bytes)
}.

Definition post_request (d : request) : M (SMS * gworld) bytes :=
  fun st =>
    let '(self, w) := st in
    let '(r, n) := server (gnet w) d in
    (r, (self, mkGWorld n (requests w ++ [(d, r)]))).

Definition this : M (SMS * gworld) SMS := fun st => (Ok (fst st), st).

Definition view : M (SMS * gworld) pdict :=
  self <~ this ;;
  let datas := ViewData (tr_id self) (tr_key self) in
  content <~ post_request datas ;;
  lift (_decode_response php_loads content).

(** [now] is what [datetime.datetime.now()] returns during the call. *)
Definition cancel (now : Z) (tr_num : Z) : M (SMS * gworld) pdict :=
  self <~ this ;;
  let d := now + one_day in
  let datas := CancelData (tr_id self) (tr_key self) d tr_num in
  content <~ post_request datas ;;
  lift (_decode_response php_loads content).

(** A caller that makes [view] and [cancel] calls one after the other;
    the first exception ends the run. *)
Inductive admin_call :=
| CallView
| CallCancel (now tr_num : Z).

Definition admin_request (self : SMS) (c : admin_call) : request :=
  match c with
  | CallView => ViewData (tr_id self) (tr_key self)
  | CallCancel now tr_num =>
      CancelData (tr_id self) (tr_key self) (now + one_day) tr_num
  end.

Definition admin (c : admin_call) : M (SMS * gworld) pdict :=
  match c with
  | CallView => view
  | CallCancel now tr_num => cancel now tr_num
  end.

Fixpoint run_admin (calls : list admin_call)
  : M (SMS * gworld) (list pdict) :=
  match calls with
  | [] => ret []
  | c :: calls =>
      r <~ admin c ;; rs <~ run_admin calls ;; ret (r :: rs)
  end.

(** A request of the record came back with a body that decodes to [r]. *)
Definition request_answered (p : request * result bytes) (r : pdict)
  : Prop :=
  exists content,
    snd p = Ok content /\ _decode_response php_loads content = Ok r.

Definition request_failed (p : request * result bytes) (e : exn) : Prop :=
  snd p = Raise e \/
  exists content,
    snd p = Ok content /\ _decode_response php_loads content = Raise e.

End Admin.

(** A caller that makes [add] calls one after the other and goes on after
    a call that raised; a call is the recipient, the text and
    [auto_slice]. *)
Fixpoint run_adds (nd : char -> bool) (enc : char -> option Z)
  (calls : list (str * str * bool)) (self : SMS) : SMS :=
  match calls with
  | [] => self
  | (tr_to, tr_txtmsg, auto_slice) :: calls =>
      run_adds nd enc calls (snd (add nd enc tr_to tr_txtmsg auto_slice self))
  end.

(** A key or a value that is a [bytes]. *)
Definition is_bytes_key (k : pkey) : bool :=
  match k with KBytes _ => true | _ => false end.

Definition is_bytes_value (v : pval) : bool :=
  match v with PBytes _ => true | _ => false end.

(** More sample data: a gateway for [view] and [cancel] that refuses the
    third request. *)
Definition sample_server (n : nat) (d : request) : result bytes * nat :=
  (if Nat.eqb n 2 then Raise (LibraryError "ConnectionError")
   else Ok sample_reply_ok, S n).

Definition sample_gworld : gworld nat := mkGWorld nat O [].


(** A key that is a [str]; [phpserialize.loads] returns none. *)
Definition is_str_key (k : pkey) : bool :=
  match k with KStr _ => true | _ => false end.

(** An item of a mapping without a [bytes] as key or as value. *)
Definition no_bytes (kv : pkey * pval) : Prop :=
  is_bytes_key (fst kv) = false /\ is_bytes_value (snd kv) = false.

(** * Theorems *)

(** ** Properties of the matcher *)

Section MatcherTheory.

Lemma rep_greedy_sound r m :
  sound_at r m ->
  forall k hi lo pos s g out,
    rep_greedy m k lo hi pos s g = Some out ->
    exists s1 s2 g1,
      s = s1 ++ s2 /\ matches (RRepeat lo hi r) pos s1 s2 g g1 /\
      k (pos + List.length s1)%nat s2 g1 = Some out.
Proof.
  intros Hm k hi.
  induction hi as [|hi IH]; intros lo pos s g out H; simpl in H.
  - exists [], s, g. simpl. rewrite Nat.add_0_r.
    repeat split; auto. constructor. now left.
  - destruct (m pos s g (rep_greedy m k (Nat.pred lo) hi)) as [g'|] eqn:E.
    + inversion H; subst g'; clear H.
      apply Hm in E. destruct E as (s1 & s2 & g1 & -> & M1 & E).
      apply IH in E. destruct E as (s1' & s2' & g2 & -> & M2 & E).
      exists (s1 ++ s1'), s2', g2.
      rewrite <- app_assoc, length_app, Nat.add_assoc.
      repeat split; auto.
      econstructor; eauto.
    + destruct (Nat.eqb lo 0) eqn:L; [|discriminate].
      apply Nat.eqb_eq in L.
      exists [], s, g. simpl. rewrite Nat.add_0_r.
      repeat split; auto. constructor. now right.
Qed.

Lemma rmatch_sound r : sound_at r (rmatch r).
Proof.
  induction r as [| |p|r1 IH1 r2 IH2|lo hi r IH|name r IH];
    intros pos s g k out H; simpl in H.
  - destruct (Nat.eqb pos 0) eqn:P; [|discriminate].
    apply Nat.eqb_eq in P; subst pos.
    exists [], s, g. simpl. repeat split; auto. constructor.
  - assert (R : s = [] \/ s = [10]).
    { destruct s as [|c [|c' s']]; auto; try discriminate.
      destruct (c =? 10) eqn:C; [|discriminate].
      apply Z.eqb_eq in C; subst; auto. }
    assert (K : k pos s g = Some out).
    { destruct R as [-> | ->]; auto. }
    exists [], s, g. simpl. rewrite Nat.add_0_r.
    repeat split; auto. now constructor.
  - destruct s as [|c s']; [discriminate|].
    destruct (p c) eqn:P; [|discriminate].
    exists [c], s', g. simpl. rewrite Nat.add_1_r.
    repeat split; auto. now constructor.
  - apply IH1 in H. destruct H as (s1 & s2 & g1 & -> & M1 & H).
    apply IH2 in H. destruct H as (s1' & s2' & g2 & -> & M2 & H).
    exists (s1 ++ s1'), s2', g2.
    rewrite <- app_assoc, length_app, Nat.add_assoc.
    repeat split; auto. econstructor; eauto.
  - eapply rep_greedy_sound; eauto.
  - apply IH in H. destruct H as (s1 & s2 & g1 & -> & M1 & H).
    exists s1, s2, ((name, s1) :: g1).
    repeat split; auto.
    + now constructor.
    + replace (pos + List.length s1 - pos)%nat with (List.length s1 + 0)%nat in H by lia.
      rewrite firstn_app_2 in H. simpl in H. now rewrite app_nil_r in H.
Qed.

Lemma rmatch_complete r pos s1 rest g g' :
  matches r pos s1 rest g g' ->
  forall k g0,
    (forall g1, k (pos + List.length s1)%nat rest g1 <> None) ->
    rmatch r pos (s1 ++ rest) g0 k <> None.
Proof.
  induction 1 as [rest g|pos rest g R|p pos c rest g P
                  |r1 r2 pos s1 s2 rest g g1 g2 M1 IH1 M2 IH2
                  |lo hi r pos rest g R
                  |lo hi r pos s1 s2 rest g g1 g2 M1 IH1 M2 IH2
                  |name r pos s1 rest g g1 M1 IH1];
    intros k g0 K; simpl in *.
  - apply K.
  - rewrite Nat.add_0_r in K. destruct R as [-> | ->]; simpl; apply K.
  - rewrite P. rewrite Nat.add_1_r in K. apply K.
  - rewrite <- app_assoc. apply IH1. intros g3. apply IH2.
    intros g4. rewrite length_app, Nat.add_assoc in K. apply K.
  - rewrite Nat.add_0_r in K.
    destruct hi as [|hi]; simpl; [apply K|].
    destruct R as [R | ->]; [discriminate|]. simpl.
    destruct (rmatch r pos rest g0 _); [discriminate|apply K].
  - rewrite <- app_assoc.
    destruct (rmatch r pos (s1 ++ s2 ++ rest) g0
                (rep_greedy (rmatch r) k (Nat.pred lo) hi)) eqn:E;
      [discriminate|].
    exfalso. revert E. apply IH1. intros g3. apply IH2.
    intros g4. rewrite length_app, Nat.add_assoc in K. apply K.
  - apply IH1. intros g3. apply K.
Qed.

End MatcherTheory.

Lemma lstrip_head s c t : lstrip s = c :: t -> isspace c = false.
Proof.
  induction s as [|a s IH]; simpl; [discriminate|].
  destruct (isspace a) eqn:A; auto.
  intros H; inversion H; subst; auto.
Qed.

Lemma strip_last s l c : strip s = l ++ [c] -> isspace c = false.
Proof.
  unfold strip, rstrip. intros H.
  apply (f_equal (@rev Z)) in H.
  rewrite rev_involutive, rev_app_distr in H. simpl in H.
  eapply lstrip_head; eauto.
Qed.

(** Inversion of [matches], one lemma per construct. *)

Lemma matches_begin_inv pos s rest g g' :
  matches RBegin pos s rest g g' -> s = [] /\ g' = g /\ pos = O.
Proof. inversion 1; auto. Qed.

Lemma matches_end_inv pos s rest g g' :
  matches REnd pos s rest g g' ->
  s = [] /\ g' = g /\ (rest = [] \/ rest = [10]).
Proof. inversion 1; auto. Qed.

Lemma matches_set_inv p pos s rest g g' :
  matches (RSet p) pos s rest g g' ->
  exists c, s = [c] /\ p c = true /\ g' = g.
Proof. inversion 1; subst; eauto. Qed.

Lemma matches_seq_inv r1 r2 pos s rest g g' :
  matches (RSeq r1 r2) pos s rest g g' ->
  exists s1 s2 g1,
    s = s1 ++ s2 /\ matches r1 pos s1 (s2 ++ rest) g g1 /\
    matches r2 (pos + List.length s1)%nat s2 rest g1 g'.
Proof. inversion 1; subst; eauto 8. Qed.

Lemma matches_group_inv name r pos s rest g g' :
  matches (RGroup name r) pos s rest g g' ->
  exists g1, matches r pos s rest g g1 /\ g' = (name, s) :: g1.
Proof. inversion 1; subst; eauto. Qed.

Lemma matches_opt_inv r pos s rest g g' :
  matches (RRepeat 0 1 r) pos s rest g g' ->
  (s = [] /\ g' = g) \/ matches r pos s rest g g'.
Proof.
  inversion 1; subst; auto.
  right.
  match goal with
  | M : matches (RRepeat _ O _) _ _ _ _ _ |- _ => inversion M; subst
  end.
  rewrite app_nil_r. simpl in *. assumption.
Qed.

Lemma matches_repeat_set_inv p hi :
  forall lo pos s rest g g',
    (lo <= hi)%nat ->
    matches (RRepeat lo hi (RSet p)) pos s rest g g' ->
    g' = g /\ forallb p s = true /\
    (lo <= List.length s <= hi)%nat.
Proof.
  induction hi as [|hi IH]; intros lo pos s rest g g' L M.
  - inversion M; subst. simpl. repeat split; auto; lia.
  - inversion M; subst.
    + match goal with R : _ \/ _ |- _ => destruct R as [R|R] end;
        [discriminate|]. subst. simpl. repeat split; auto; lia.
    + match goal with
      | M1 : matches (RSet _) _ _ _ _ _ |- _ =>
          apply matches_set_inv in M1; destruct M1 as (c & -> & P & ->)
      end.
      match goal with
      | M2 : matches (RRepeat _ hi _) _ _ _ _ _ |- _ =>
          apply IH in M2; [|lia]; destruct M2 as (-> & F & B)
      end.
      simpl. rewrite P, F. repeat split; auto; lia.
Qed.

(** Building a match. *)

Lemma matches_opt_none r pos rest g : matches (RRepeat 0 1 r) pos [] rest g g.
Proof. constructor. now right. Qed.

Lemma matches_opt_some r pos s rest g g' :
  matches r pos s rest g g' -> matches (RRepeat 0 1 r) pos s rest g g'.
Proof.
  intros M. rewrite <- (app_nil_r s).
  eapply MRepeatStep; [simpl; eassumption|].
  constructor. now left.
Qed.

Lemma matches_repeat_set p s :
  forall lo hi pos rest g,
    forallb p s = true -> (lo <= List.length s <= hi)%nat ->
    matches (RRepeat lo hi (RSet p)) pos s rest g g.
Proof.
  induction s as [|c s IH]; intros lo hi pos rest g F B; simpl in *.
  - constructor. right. lia.
  - apply andb_true_iff in F. destruct F as [P F].
    destruct hi as [|hi]; [lia|].
    change (c :: s) with ([c] ++ s).
    eapply MRepeatStep.
    + now constructor.
    + apply IH; auto. lia.
Qed.

(** ** The number normaliser *)

Section NormaliserTheory.

Variable nd : char -> bool.

Lemma opt_sep_matches sep pos rest g :
  opt_sep sep -> matches (RRepeat 0 1 (RSet is_sep)) pos sep rest g g.
Proof.
  intros [-> | (c & C & ->)].
  - apply matches_opt_none.
  - apply matches_opt_some. now constructor.
Qed.

Lemma opt_sep_inv pos sep rest g g' :
  matches (RRepeat 0 1 (RSet is_sep)) pos sep rest g g' ->
  opt_sep sep /\ g' = g.
Proof.
  intros M. apply matches_opt_inv in M. destruct M as [[-> ->] | M].
  - split; auto. now left.
  - apply matches_set_inv in M. destruct M as (c & -> & C & ->).
    split; auto. right. eauto.
Qed.

Lemma opt_prefix_matches pre pos rest :
  opt_prefix nd pre ->
  matches
    (RRepeat 0 1
       (RGroup "num0" (RSeq (RSet is_zero)
                      (RSeq (RSet (isdecimal nd)) (RSet is_zero)))))
    pos pre rest [] (prefix_groups pre).
Proof.
  intros [-> | (d & D & ->)].
  - apply matches_opt_none.
  - apply matches_opt_some. simpl. constructor.
    change [48; d; 48] with ([48] ++ [d] ++ [48]).
    eapply MSeq; [now constructor|].
    eapply MSeq; now constructor.
Qed.

Lemma number_parse_matches s pre sep1 mid sep2 fin :
  number_parse nd s pre sep1 mid sep2 fin ->
  matches (PATTERN_NUM nd) 0 s [] []
    (("num2"%string, fin) :: ("num1"%string, mid) :: prefix_groups pre).
Proof.
  intros (-> & Hpre & H1 & Dm & Lm & H2 & Df & Lf).
  unfold PATTERN_NUM.
  change (pre ++ sep1 ++ mid ++ sep2 ++ fin)
    with ([] ++ pre ++ sep1 ++ mid ++ sep2 ++ fin).
  eapply MSeq; [constructor|].
  eapply MSeq; [apply opt_prefix_matches; assumption|].
  eapply MSeq; [apply opt_sep_matches; assumption|].
  eapply MSeq.
  { constructor. apply matches_repeat_set; auto. lia. }
  eapply MSeq; [apply opt_sep_matches; assumption|].
  rewrite <- (app_nil_r fin) at 1.
  eapply MSeq.
  { constructor. apply matches_repeat_set; auto. lia. }
  constructor. now left.
Qed.

Lemma matches_number_parse s1 rest g :
  matches (PATTERN_NUM nd) 0 s1 rest [] g ->
  exists pre sep1 mid sep2 fin,
    number_parse nd s1 pre sep1 mid sep2 fin /\
    (rest = [] \/ rest = [10]) /\
    g = ("num2"%string, fin) :: ("num1"%string, mid) :: prefix_groups pre.
Proof.
  unfold PATTERN_NUM. intros M.
  apply matches_seq_inv in M. destruct M as (s0 & t0 & g0 & -> & M0 & M).
  apply matches_begin_inv in M0. destruct M0 as (-> & -> & _).
  apply matches_seq_inv in M. destruct M as (pre & t1 & g1 & -> & Mp & M).
  apply matches_seq_inv in M. destruct M as (sep1 & t2 & g2 & -> & M1 & M).
  apply matches_seq_inv in M. destruct M as (mid & t3 & g3 & -> & Mm & M).
  apply matches_seq_inv in M. destruct M as (sep2 & t4 & g4 & -> & M2 & M).
  apply matches_seq_inv in M. destruct M as (fin & t5 & g5 & -> & Mf & M).
  apply matches_end_inv in M. destruct M as (-> & -> & R).
  apply opt_sep_inv in M1. destruct M1 as [S1 ->].
  apply opt_sep_inv in M2. destruct M2 as [S2 ->].
  apply matches_group_inv in Mm. destruct Mm as (gm & Mm & ->).
  apply matches_repeat_set_inv in Mm; [|lia]. destruct Mm as (-> & Dm & Lm).
  apply matches_group_inv in Mf. destruct Mf as (gf & Mf & ->).
  apply matches_repeat_set_inv in Mf; [|lia]. destruct Mf as (-> & Df & Lf).
  assert (P : opt_prefix nd pre /\ g1 = prefix_groups pre).
  { apply matches_opt_inv in Mp. destruct Mp as [[-> ->] | Mp].
    - split; [now left|reflexivity].
    - apply matches_group_inv in Mp. destruct Mp as (g0 & Mp & ->).
      apply matches_seq_inv in Mp. destruct Mp as (a & t & ga & -> & Ma & Mp).
      apply matches_seq_inv in Mp. destruct Mp as (b & c & gb & -> & Mb & Mc).
      apply matches_set_inv in Ma. destruct Ma as (ca & -> & Za & ->).
      apply matches_set_inv in Mb. destruct Mb as (cb & -> & Db & ->).
      apply matches_set_inv in Mc. destruct Mc as (cc & -> & Zc & ->).
      unfold is_zero in *. apply Z.eqb_eq in Za, Zc. subst.
      split; [right; eauto|reflexivity]. }
  destruct P as [P ->].
  exists pre, sep1, mid, sep2, fin.
  repeat split; auto; try lia.
  simpl. now rewrite !app_nil_r.
Qed.

(** The outcome of [PATTERN_NUM.match] on a stripped input. *)
Lemma re_match_number s g :
  re_match (PATTERN_NUM nd) (strip s) = Some g ->
  exists pre sep1 mid sep2 fin,
    number_parse nd (strip s) pre sep1 mid sep2 fin /\
    g = ("num2"%string, fin) :: ("num1"%string, mid) :: prefix_groups pre.
Proof.
  unfold re_match. intros H.
  apply rmatch_sound in H. destruct H as (s1 & s2 & g1 & E & M & K).
  inversion K; subst g1; clear K.
  apply matches_number_parse in M.
  destruct M as (pre & sep1 & mid & sep2 & fin & P & R & ->).
  destruct R as [-> | ->].
  - rewrite app_nil_r in E. subst s1. eauto 10.
  - apply strip_last in E. discriminate.
Qed.

Lemma number_shape_match s :
  number_shape nd s -> re_match (PATTERN_NUM nd) s <> None.
Proof.
  intros (pre & sep1 & mid & sep2 & fin & P).
  apply number_parse_matches in P.
  unfold re_match. rewrite <- (app_nil_r s) at 1.
  eapply rmatch_complete; eauto. discriminate.
Qed.

(** What [_valid_tr_to] returns, in terms of the parse. *)
Lemma valid_tr_to_parse s g :
  re_match (PATTERN_NUM nd) (strip s) = Some g ->
  exists pre sep1 mid sep2 fin,
    number_parse nd (strip s) pre sep1 mid sep2 fin /\
    _valid_tr_to nd s =
      Ok (match pre with [] => lit "010" | _ :: _ => pre end
          ++ lit "-" ++ mid ++ lit "-" ++ fin).
Proof.
  intros H. unfold _valid_tr_to. rewrite H.
  apply re_match_number in H.
  destruct H as (pre & sep1 & mid & sep2 & fin & P & ->).
  exists pre, sep1, mid, sep2, fin. split; auto.
  destruct P as (_ & [-> | (d & _ & ->)] & _); reflexivity.
Qed.

End NormaliserTheory.

(** C5 (amended): the normaliser succeeds exactly on the inputs whose
    stripped form is an optional prefix made of '0', a digit and '0', an
    optional separator (a whitespace character, a dash or a dot), a group
    of three or four digits, an optional separator and a group of four
    digits; on every other input it raises the invalid-number error. *)
Theorem valid_tr_to_accepts_iff (nd : char -> bool) (s : str) :
  (number_shape nd (strip s) <-> exists r, _valid_tr_to nd s = Ok r) /\
  (~ number_shape nd (strip s) <->
   _valid_tr_to nd s = Raise (InvalidNumber s)).
Proof.
  destruct (re_match (PATTERN_NUM nd) (strip s)) as [g|] eqn:E.
  - destruct (valid_tr_to_parse nd s g E)
      as (pre & sep1 & mid & sep2 & fin & P & R).
    assert (Sh : number_shape nd (strip s)) by (red; eauto 8).
    rewrite R. split; split; intros H; eauto.
    + contradiction.
    + discriminate.
  - assert (Sh : ~ number_shape nd (strip s)).
    { intros Sh. now apply number_shape_match in Sh. }
    unfold _valid_tr_to. rewrite E. split; split; intros H; auto.
    + contradiction.
    + destruct H; discriminate.
Qed.

(** C5, as stated, fails: "011-1234-5678" has a three-digit prefix that
    starts with '0', dashes as separators and groups of four digits, and
    the normaliser rejects it, whatever the digit table. *)
Lemma valid_tr_to_rejects_011 :
  (forall nd, claimed_number_shape nd (strip (lit "011-1234-5678"))) /\
  (forall nd,
     _valid_tr_to nd (lit "011-1234-5678")
     = Raise (InvalidNumber (lit "011-1234-5678"))).
Proof.
  split; intros nd.
  - exists (lit "011"), (lit "-"), (lit "1234"), (lit "-"), (lit "5678").
    repeat split; try reflexivity.
    + right. exists 49, 49. repeat split; reflexivity.
    + right; right; left; reflexivity.
    + now right.
    + right; right; left; reflexivity.
  - reflexivity.
Qed.

(** C9: an accepted input is a parse of the stripped input along the
    pattern, and the result is the prefix of that parse (or "010" when the
    parse has none), the middle group and the final group, joined by '-'. *)
Theorem valid_tr_to_canonical (nd : char -> bool) (s r : str) :
  _valid_tr_to nd s = Ok r ->
  exists pre sep1 mid sep2 fin,
    number_parse nd (strip s) pre sep1 mid sep2 fin /\
    r = match pre with [] => lit "010" | _ :: _ => pre end
        ++ lit "-" ++ mid ++ lit "-" ++ fin.
Proof.
  intros H.
  destruct (re_match (PATTERN_NUM nd) (strip s)) as [g|] eqn:E.
  - destruct (valid_tr_to_parse nd s g E)
      as (pre & sep1 & mid & sep2 & fin & P & R).
    rewrite R in H. inversion H; subst r. eauto 8.
  - unfold _valid_tr_to in H. rewrite E in H. discriminate.
Qed.

Lemma valid_tr_to_canonical_witness :
  exists pre sep1 mid sep2 fin,
    number_parse sample_nd (strip (lit " 070.1234 5678 ")) pre sep1 mid sep2 fin /\
    lit "070-1234-5678"
    = match pre with [] => lit "010" | _ :: _ => pre end
      ++ lit "-" ++ mid ++ lit "-" ++ fin.
Proof.
  apply (valid_tr_to_canonical sample_nd (lit " 070.1234 5678 ")
           (lit "070-1234-5678")).
  reflexivity.
Defined.

(** ** The parse of a number is unique *)

Section ParseUnique.

Variable nd : char -> bool.

(** No decimal digit of the Unicode database is a whitespace character. *)
Hypothesis nd_not_space : forall c, nd c = true -> isspace c = false.

#[local] Abbreviation count_digits := (count_digits nd).

Lemma digit_not_sep c : isdecimal nd c = true -> is_sep c = false.
Proof.
  unfold isdecimal, is_sep. destruct (c <? 128) eqn:A.
  - intros H. apply andb_true_iff in H. destruct H as [H1 H2].
    apply Z.leb_le in H1, H2.
    unfold isspace.
    repeat match goal with
           | |- context [?a <=? ?b] =>
               destruct (Z.leb_spec a b); try lia
           | |- context [?a =? ?b] =>
               destruct (Z.eqb_spec a b); try lia
           end; reflexivity.
  - intros H. rewrite (nd_not_space c H). apply Z.ltb_ge in A.
    destruct (Z.eqb_spec c 45); [lia|]. destruct (Z.eqb_spec c 46); [lia|].
    reflexivity.
Qed.

Lemma count_digits_app s t :
  count_digits (s ++ t) = (count_digits s + count_digits t)%nat.
Proof. unfold count_digits. now rewrite filter_app, length_app. Qed.

Lemma count_digits_all s :
  forallb (isdecimal nd) s = true -> count_digits s = List.length s.
Proof.
  unfold count_digits. induction s as [|c s IH]; simpl; auto.
  intros H. apply andb_true_iff in H. destruct H as [H1 H2].
  rewrite H1. simpl. now rewrite IH.
Qed.

Lemma count_digits_sep sep : opt_sep sep -> count_digits sep = O.
Proof.
  intros [-> | (c & C & ->)]; [reflexivity|].
  unfold count_digits. simpl.
  destruct (isdecimal nd c) eqn:D; [|reflexivity].
  apply digit_not_sep in D. congruence.
Qed.

Lemma count_digits_prefix pre :
  opt_prefix nd pre -> count_digits pre = List.length pre.
Proof.
  intros [-> | (d & D & ->)]; [reflexivity|].
  unfold count_digits. simpl. rewrite D.
  replace (isdecimal nd 48) with true by reflexivity. reflexivity.
Qed.

Lemma opt_prefix_length pre :
  opt_prefix nd pre -> (List.length pre = 0 \/ List.length pre = 3)%nat.
Proof. intros [-> | (d & _ & ->)]; auto. Qed.

(** A separator, or none, in front of a digit: the text decides which. *)
Lemma opt_sep_head sep sep' d t d' t' :
  opt_sep sep -> opt_sep sep' ->
  isdecimal nd d = true -> isdecimal nd d' = true ->
  sep ++ d :: t = sep' ++ d' :: t' ->
  sep = sep' /\ d :: t = d' :: t'.
Proof.
  intros [-> | (c & C & ->)] [-> | (c' & C' & ->)] D D' E; simpl in E.
  - auto.
  - inversion E; subst. apply digit_not_sep in D. congruence.
  - inversion E; subst. apply digit_not_sep in D'. congruence.
  - inversion E; subst. auto.
Qed.

Lemma digits_head s :
  forallb (isdecimal nd) s = true -> (0 < List.length s)%nat ->
  exists d t, s = d :: t /\ isdecimal nd d = true.
Proof.
  destruct s as [|d t]; [simpl; lia|]. simpl. intros H _.
  apply andb_true_iff in H. destruct H. eauto.
Qed.

Theorem number_parse_unique s pre sep1 mid sep2 fin pre' sep1' mid' sep2' fin' :
  number_parse nd s pre sep1 mid sep2 fin ->
  number_parse nd s pre' sep1' mid' sep2' fin' ->
  pre = pre' /\ sep1 = sep1' /\ mid = mid' /\ sep2 = sep2' /\ fin = fin'.
Proof.
  intros (E & P & S1 & Dm & Lm & S2 & Df & Lf)
         (E' & P' & S1' & Dm' & Lm' & S2' & Df' & Lf').
  assert (C : count_digits s
              = (List.length pre + List.length mid + 4)%nat).
  { rewrite E, !count_digits_app, (count_digits_prefix pre P),
      (count_digits_sep sep1 S1), (count_digits_all mid Dm),
      (count_digits_sep sep2 S2), (count_digits_all fin Df), Lf. lia. }
  assert (C' : count_digits s
               = (List.length pre' + List.length mid' + 4)%nat).
  { rewrite E', !count_digits_app, (count_digits_prefix pre' P'),
      (count_digits_sep sep1' S1'), (count_digits_all mid' Dm'),
      (count_digits_sep sep2' S2'), (count_digits_all fin' Df'), Lf'. lia. }
  pose proof (opt_prefix_length pre P) as Lp.
  pose proof (opt_prefix_length pre' P') as Lp'.
  assert (Lpre : List.length pre = List.length pre') by lia.
  assert (Lmid : List.length mid = List.length mid') by lia.
  rewrite E in E'.
  apply app_eq_app in E'.
  assert (Epre : pre = pre' /\
                 sep1 ++ mid ++ sep2 ++ fin = sep1' ++ mid' ++ sep2' ++ fin').
  { destruct E' as (l & [[E1 E2] | [E1 E2]]).
    - assert (l = []).
      { apply (f_equal (@List.length char)) in E1. rewrite length_app in E1.
        destruct l; auto. simpl in E1. exfalso. lia. }
      subst l. rewrite app_nil_r in E1. simpl in E2. auto.
    - assert (l = []).
      { apply (f_equal (@List.length char)) in E1. rewrite length_app in E1.
        destruct l; auto. simpl in E1. exfalso. lia. }
      subst l. rewrite app_nil_r in E1. simpl in E2. auto. }
  destruct Epre as [<- Er]. clear E'.
  destruct (digits_head mid Dm) as (d & t & Hm & Hd); [lia|].
  destruct (digits_head mid' Dm') as (d' & t' & Hm' & Hd'); [lia|].
  rewrite Hm, Hm' in Er. simpl in Er.
  destruct (opt_sep_head sep1 sep1' d _ d' _ S1 S1' Hd Hd' Er) as [<- Er1].
  change (d :: t ++ sep2 ++ fin) with ((d :: t) ++ sep2 ++ fin) in Er1.
  change (d' :: t' ++ sep2' ++ fin') with ((d' :: t') ++ sep2' ++ fin') in Er1.
  rewrite <- Hm, <- Hm' in Er1.
  assert (Emid : mid = mid' /\ sep2 ++ fin = sep2' ++ fin').
  { apply app_eq_app in Er1. destruct Er1 as (l & [[E1 E2] | [E1 E2]]).
    - assert (l = []).
      { apply (f_equal (@List.length char)) in E1. rewrite length_app in E1.
        destruct l; auto. simpl in E1. exfalso. lia. }
      subst l. rewrite app_nil_r in E1. simpl in E2. auto.
    - assert (l = []).
      { apply (f_equal (@List.length char)) in E1. rewrite length_app in E1.
        destruct l; auto. simpl in E1. exfalso. lia. }
      subst l. rewrite app_nil_r in E1. simpl in E2. auto. }
  destruct Emid as [<- Er2].
  destruct (digits_head fin Df) as (f & u & Hf & Hfd); [lia|].
  destruct (digits_head fin' Df') as (f' & u' & Hf' & Hfd'); [lia|].
  rewrite Hf, Hf' in Er2.
  destruct (opt_sep_head sep2 sep2' f _ f' _ S2 S2' Hfd Hfd' Er2) as [<- Er3].
  rewrite Hf, Hf'. auto.
Qed.

End ParseUnique.

(** ** The codec *)

Lemma bind_ok {A B} (r : result A) (f : A -> result B) b :
  bind r f = Ok b -> exists a, r = Ok a /\ f a = Ok b.
Proof. destruct r; simpl; eauto; discriminate. Qed.

Lemma len_app {A} (l1 l2 : list A) : len (l1 ++ l2) = len l1 + len l2.
Proof. unfold len. rewrite length_app. lia. Qed.

Lemma len_nonneg {A} (l : list A) : 0 <= len l.
Proof. unfold len. lia. Qed.

Lemma len_cons {A} (a : A) (l : list A) : len (a :: l) = 1 + len l.
Proof. unfold len. simpl List.length. lia. Qed.

Lemma len_nil {A} : len (@nil A) = 0.
Proof. reflexivity. Qed.

Section CodecTheory.

Variable cp949_encmap : char -> option Z.
Variable ksx1001_decmap : Z -> Z -> option char.

#[local] Abbreviation encode_char := (euc_kr_encode_char cp949_encmap).
#[local] Abbreviation encode := (euc_kr_encode cp949_encmap).
#[local] Abbreviation decode := (euc_kr_decode ksx1001_decmap).
#[local] Abbreviation width := (width cp949_encmap).
#[local] Abbreviation widths := (widths cp949_encmap).
#[local] Abbreviation encodable := (encodable cp949_encmap).
#[local] Abbreviation decodes_back := (decodes_back cp949_encmap ksx1001_decmap).

Lemma width_cases c :
  encodable c = true -> width c = 1 \/ width c = 2 \/ width c = 8.
Proof.
  unfold encodable, width, euc_kr_encode_char.
  destruct (c <? 0x80); [auto|].
  destruct (0xFFFF <? c); [discriminate|].
  destruct (cp949_encmap c) as [code|]; [|discriminate].
  destruct (Z.land code 0x8000 =? 0); auto.
Qed.

Lemma encode_app s t :
  encode (s ++ t) = (e1 <- encode s ;; e2 <- encode t ;; Ok (e1 ++ e2)).
Proof.
  induction s as [|c s IH]; simpl.
  - destruct (encode t); reflexivity.
  - destruct (encode_char c) as [e|]; [|reflexivity].
    rewrite IH. destruct (encode s); simpl; [|reflexivity].
    destruct (encode t); simpl; [|reflexivity].
    now rewrite app_assoc.
Qed.

Lemma encode_ok_iff s :
  (exists e, encode s = Ok e) <-> forallb encodable s = true.
Proof.
  induction s as [|c s IH]; simpl.
  - split; eauto.
  - unfold encodable at 1.
    destruct (encode_char c) as [e|]; simpl.
    + rewrite <- IH. split.
      * intros [e' H]. apply bind_ok in H. destruct H as (a & H & _). eauto.
      * intros [e' H]. rewrite H. simpl. eauto.
    + split; [intros [e H]|]; discriminate.
Qed.

Lemma encode_raises s e : encode s = Raise e -> e = UnicodeEncodeError.
Proof.
  revert e. induction s as [|c s IH]; simpl; intros e; [discriminate|].
  destruct (encode_char c); [|now inversion 1].
  destruct (encode s); simpl; [discriminate|].
  intros H; inversion H; subst. now apply IH.
Qed.

Lemma encode_len s e : encode s = Ok e -> len e = widths s.
Proof.
  revert e. induction s as [|c s IH]; simpl; intros e H.
  - now inversion H.
  - unfold width. destruct (encode_char c) as [ec|]; [|discriminate].
    apply bind_ok in H. destruct H as (e' & H & E). inversion E; subst.
    rewrite len_app. now rewrite (IH e').
Qed.

Lemma widths_app s t : widths (s ++ t) = widths s + widths t.
Proof. induction s; simpl; lia. Qed.

Lemma width_nonneg c : 0 <= width c.
Proof. unfold width. destruct (encode_char c); [apply len_nonneg|lia]. Qed.

Lemma widths_nonneg s : 0 <= widths s.
Proof. induction s; simpl; [lia|]. pose proof (width_nonneg a). lia. Qed.

Lemma width_pos c : encodable c = true -> 1 <= width c.
Proof. intros H. destruct (width_cases c H) as [W|[W|W]]; lia. Qed.

(** Decoding undoes encoding, character by character. *)
Lemma decode_encode_char c e rest :
  decodes_back c = true ->
  encode_char c = Some e ->
  decode (e ++ rest) = (s <- decode rest ;; Ok (c :: s)).
Proof.
  unfold decodes_back. intros D E. rewrite E in D.
  unfold euc_kr_encode_char in E.
  destruct (c <? 0x80) eqn:A.
  { inversion E; subst. simpl. now rewrite A. }
  destruct (0xFFFF <? c); [discriminate|].
  destruct (cp949_encmap c) as [code|]; [|discriminate].
  destruct (Z.land code 0x8000 =? 0).
  - inversion E; subst e; clear E.
    set (b1 := Z.lor (Z.shiftr code 8) 0x80) in *.
    set (b2 := Z.lor (Z.land code 0xFF) 0x80) in *.
    simpl in D. simpl.
    destruct (b1 <? 0x80).
    { destruct (b2 <? 0x80); simpl in D; discriminate. }
    destruct ((b1 =? EUCKR_JAMO_FIRSTBYTE) && (b2 =? EUCKR_JAMO_FILLER));
      [discriminate|].
    destruct (ksx1001_decmap (Z.lxor b1 0x80) (Z.lxor b2 0x80)) as [ch|];
      [|discriminate].
    simpl in D. apply Z.eqb_eq in D. now subst.
  - inversion E; subst e; clear E.
    set (b4 := table_at u2cgk_choseong ((c - 0xac00) / 588)) in *.
    set (b6 := table_at u2cgk_jungseong (((c - 0xac00) / 28) mod 21)) in *.
    set (b8 := table_at u2cgk_jongseong ((c - 0xac00) mod 28)) in *.
    cbn [euc_kr_decode app] in D |- *.
    change (EUCKR_JAMO_FIRSTBYTE <? 0x80) with false in D |- *.
    change ((EUCKR_JAMO_FIRSTBYTE =? EUCKR_JAMO_FIRSTBYTE)
            && (EUCKR_JAMO_FILLER =? EUCKR_JAMO_FILLER)) with true in D |- *.
    change (negb (EUCKR_JAMO_FIRSTBYTE =? EUCKR_JAMO_FIRSTBYTE)) with false
      in D |- *.
    cbn [orb] in D |- *. cbv iota in D |- *.
    destruct (decode_makeup b4 b6 b8) as [ch|]; [|discriminate].
    simpl in D. apply Z.eqb_eq in D. now subst.
Qed.

Theorem decode_encode s e :
  forallb decodes_back s = true -> encode s = Ok e -> decode e = Ok s.
Proof.
  revert e. induction s as [|c s IH]; simpl; intros e D E.
  - now inversion E.
  - apply andb_true_iff in D. destruct D as [Dc Ds].
    destruct (encode_char c) as [ec|] eqn:Ec; [|discriminate].
    apply bind_ok in E. destruct E as (e' & E & R). inversion R; subst e.
    rewrite (decode_encode_char c ec e' Dc Ec).
    now rewrite (IH e' Ds E).
Qed.

Lemma decodes_back_encodable c : decodes_back c = true -> encodable c = true.
Proof.
  unfold decodes_back, encodable. destruct (encode_char c); auto.
Qed.

Lemma forallb_decodes_back_encodable s :
  forallb decodes_back s = true -> forallb encodable s = true.
Proof.
  induction s as [|c s IH]; simpl; auto.
  intros H. apply andb_true_iff in H. destruct H as [H1 H2].
  now rewrite (decodes_back_encodable c H1), IH.
Qed.

End CodecTheory.

(** ** The slicer *)

Section SlicerTheory.

Variable cp949_encmap : char -> option Z.
Variable ksx1001_decmap : Z -> Z -> option char.

#[local] Abbreviation encode := (euc_kr_encode cp949_encmap).
#[local] Abbreviation decode := (euc_kr_decode ksx1001_decmap).
#[local] Abbreviation encodable := (encodable cp949_encmap).
#[local] Abbreviation decodes_back := (decodes_back cp949_encmap ksx1001_decmap).
#[local] Abbreviation width := (width cp949_encmap).
#[local] Abbreviation widths := (widths cp949_encmap).
#[local] Abbreviation slice_loop := (slice_loop cp949_encmap).
#[local] Abbreviation slice := (_slice_tr_txtmsg cp949_encmap).
#[local] Abbreviation segments_of := (segments_of cp949_encmap).
#[local] Abbreviation narrow := (narrow cp949_encmap).

Lemma segments_of_app c1 s1 c2 s2 :
  segments_of c1 s1 -> segments_of c2 s2 ->
  segments_of (c1 ++ c2) (s1 ++ s2).
Proof. apply Forall2_app. Qed.

Lemma forallb_app_l {A} (p : A -> bool) l1 l2 :
  forallb p (l1 ++ l2) = true -> forallb p l1 = true.
Proof. rewrite forallb_app. intros H. now apply andb_true_iff in H. Qed.

(** The loop on encodable input: it ends, the segments it adds are the
    encodings of consecutive non-empty chunks of the text, and what it
    leaves in [popped] is the rest. *)
Lemma slice_loop_chunks txt :
  forall popped sliced,
    forallb encodable (popped ++ txt) = true ->
    exists chunks new popped',
      slice_loop txt popped sliced = Ok (popped', sliced ++ new) /\
      segments_of chunks new /\
      Forall (fun ch => ch <> []) chunks /\
      popped ++ txt = concat chunks ++ popped'.
Proof.
  induction txt as [|c txt IH]; intros popped sliced E; simpl.
  - exists [], [], popped. rewrite !app_nil_r. repeat split; constructor.
  - replace (popped ++ c :: txt) with ((popped ++ [c]) ++ txt) in *
      by now rewrite <- app_assoc.
    destruct (44 <? len (popped ++ [c])).
    + destruct (proj2 (encode_ok_iff cp949_encmap (popped ++ [c])))
        as [e He]; [eapply forallb_app_l; eauto|].
      rewrite He. simpl.
      destruct ((len e =? 89) || (len e =? 90)).
      * destruct (IH [] (sliced ++ [e])) as (chunks & new & p' & L & S & N & C).
        { rewrite forallb_app in E. now apply andb_true_iff in E. }
        exists ((popped ++ [c]) :: chunks), (e :: new), p'.
        rewrite L, <- app_assoc. simpl in *. repeat split.
        -- constructor; auto.
        -- constructor; auto. now destruct popped.
        -- now rewrite C, app_assoc.
      * apply IH; auto.
    + apply IH; auto.
Qed.

(** The slicer on encodable input. *)
Lemma slice_chunks s :
  forallb encodable s = true ->
  exists chunks segs,
    slice s = Ok segs /\ segments_of chunks segs /\
    Forall (fun ch => ch <> []) chunks /\ concat chunks = s.
Proof.
  intros E. unfold _slice_tr_txtmsg.
  destruct (slice_loop_chunks s [] [] E) as (chunks & new & p' & L & S & N & C).
  rewrite L. simpl in *.
  destruct p' as [|c p'].
  - exists chunks, new. rewrite app_nil_r in C. repeat split; auto.
  - destruct (proj2 (encode_ok_iff cp949_encmap (c :: p'))) as [e He].
    { rewrite C, forallb_app in E. now apply andb_true_iff in E. }
    rewrite He. simpl.
    exists (chunks ++ [c :: p']), (new ++ [e]). repeat split.
    + apply segments_of_app; auto. repeat constructor. assumption.
    + apply Forall_app. split; auto. repeat constructor. discriminate.
    + rewrite concat_app. simpl. now rewrite app_nil_r.
Qed.

(** Decoding the segments of chunks gives the chunks back, joined. *)
Lemma decode_join_segments chunks :
  forall segs,
    segments_of chunks segs ->
    forallb decodes_back (concat chunks) = true ->
    decode_join ksx1001_decmap segs = Ok (concat chunks).
Proof.
  induction chunks as [|ch chunks IH]; intros segs S D; inversion S; subst.
  - reflexivity.
  - simpl in *. rewrite forallb_app in D. apply andb_true_iff in D.
    destruct D as [D1 D2].
    rewrite (decode_encode _ _ ch y D1 H1). simpl.
    now rewrite IH.
Qed.

Lemma segments_total_len chunks :
  forall segs, segments_of chunks segs -> total_len segs = widths (concat chunks).
Proof.
  induction chunks as [|ch chunks IH]; intros segs S; inversion S; subst.
  - reflexivity.
  - simpl. rewrite widths_app, (IH l'); auto.
    erewrite encode_len; eauto.
Qed.

Lemma narrow_encodable s : forallb narrow s = true -> forallb encodable s = true.
Proof.
  induction s as [|c s IH]; simpl; auto. unfold narrow at 1.
  intros H. apply andb_true_iff in H. destruct H as [H1 H2].
  apply andb_true_iff in H1. destruct H1 as [H1 _]. now rewrite H1, IH.
Qed.

Lemma narrow_widths s : forallb narrow s = true -> widths s <= 2 * len s.
Proof.
  induction s as [|c s IH]; [intros _; unfold len; simpl; lia|].
  cbn [forallb]. change (widths (c :: s)) with (width c + widths s).
  unfold narrow at 1.
  intros H. apply andb_true_iff in H. destruct H as [H1 H2].
  apply andb_true_iff in H1. destruct H1 as [_ H1]. apply Z.leb_le in H1.
  rewrite len_cons. specialize (IH H2). lia.
Qed.

Lemma narrow_width c : narrow c = true -> 1 <= width c <= 2.
Proof.
  unfold narrow. intros H. apply andb_true_iff in H. destruct H as [H1 H2].
  apply Z.leb_le in H2. pose proof (width_pos cp949_encmap c H1). lia.
Qed.

(** With characters of one or two bytes, the loop closes every segment at
    89 or 90 bytes and never holds more than 88 bytes in [popped]. *)
Lemma slice_loop_narrow txt :
  forall popped sliced popped' sliced',
    forallb narrow (popped ++ txt) = true ->
    widths popped <= 88 ->
    slice_loop txt popped sliced = Ok (popped', sliced') ->
    widths popped' <= 88 /\
    exists new, sliced' = sliced ++ new /\
                Forall (fun e => len e = 89 \/ len e = 90) new.
Proof.
  induction txt as [|c txt IH]; intros popped sliced popped' sliced' N W L;
    simpl in L.
  - inversion L; subst. split; auto. exists []. now rewrite app_nil_r.
  - replace (popped ++ c :: txt) with ((popped ++ [c]) ++ txt) in *
      by now rewrite <- app_assoc.
    assert (Nc : narrow c = true).
    { apply forallb_app_l in N. rewrite forallb_app in N.
      apply andb_true_iff in N. destruct N as [_ N]. simpl in N.
      now rewrite andb_true_r in N. }
    pose proof (narrow_width c Nc) as Wc.
    assert (W' : widths (popped ++ [c]) = widths popped + width c).
    { rewrite widths_app. simpl. lia. }
    destruct (44 <? len (popped ++ [c])) eqn:Long.
    + destruct (encode (popped ++ [c])) as [e|] eqn:He; [|discriminate].
      simpl in L. apply encode_len in He.
      destruct ((len e =? 89) || (len e =? 90)) eqn:Close.
      * apply IH in L.
        -- destruct L as (Wp & new & -> & F). split; auto.
           exists (e :: new). rewrite <- app_assoc. split; auto.
           constructor; auto.
           apply orb_true_iff in Close. destruct Close as [C|C];
             apply Z.eqb_eq in C; auto.
        -- rewrite forallb_app in N. now apply andb_true_iff in N.
        -- simpl. lia.
      * apply IH in L; auto.
        apply orb_false_iff in Close. destruct Close as [C1 C2].
        apply Z.eqb_neq in C1, C2. lia.
    + apply IH in L; auto.
      apply Z.ltb_ge in Long.
      pose proof (narrow_widths (popped ++ [c]) (forallb_app_l _ _ _ N)). lia.
Qed.

(** With characters of one or two bytes every segment has between 1 and
    90 bytes. *)
Lemma slice_narrow s segs :
  forallb narrow s = true ->
  slice s = Ok segs ->
  Forall (fun e => 0 < len e <= 90) segs.
Proof.
  intros N H. unfold _slice_tr_txtmsg in H.
  apply bind_ok in H. destruct H as ([popped sliced] & L & H).
  pose proof (slice_loop_chunks s [] [] (narrow_encodable _ N))
    as (chunks & new & p' & L' & S & Ne & C).
  rewrite L in L'. inversion L'; subst; clear L'.
  apply slice_loop_narrow in L; auto; [|simpl; lia].
  destruct L as (Wp & new' & E & F). simpl in E. subst new'.
  assert (F' : Forall (fun e => 0 < len e <= 90) new).
  { eapply Forall_impl; [|exact F]. simpl. intros e [A|A]; lia. }
  destruct p' as [|c p'].
  - inversion H; subst. exact F'.
  - apply bind_ok in H. destruct H as (e & He & H). inversion H; subst.
    apply Forall_app. split; auto. repeat constructor.
    + apply encode_len in He. rewrite He. simpl.
      assert (Nc : narrow c = true).
      { simpl in C. rewrite C, forallb_app in N. apply andb_true_iff in N.
        destruct N as [_ N]. simpl in N. now apply andb_true_iff in N. }
      pose proof (narrow_width c Nc). pose proof (widths_nonneg cp949_encmap p').
      lia.
    + apply encode_len in He. lia.
Qed.

End SlicerTheory.

(** ** The queue: [add] *)

Lemma lstrip_split s : exists a, s = a ++ lstrip s.
Proof.
  induction s as [|c s [a IH]]; simpl.
  - now exists [].
  - destruct (isspace c).
    + exists (c :: a). simpl. now rewrite <- IH.
    + now exists [].
Qed.

(** The stripped text is a piece of the text. *)
Lemma strip_split s : exists a b, s = a ++ strip s ++ b.
Proof.
  unfold strip, rstrip.
  destruct (lstrip_split s) as [a Ha].
  destruct (lstrip_split (rev (lstrip s))) as [b Hb].
  exists a, (rev b). rewrite Ha at 1. f_equal.
  rewrite <- rev_app_distr, <- Hb. now rewrite rev_involutive.
Qed.

Lemma forallb_strip (p : char -> bool) s :
  forallb p s = true -> forallb p (strip s) = true.
Proof.
  destruct (strip_split s) as (a & b & E). rewrite E at 1.
  rewrite !forallb_app. intros H.
  apply andb_true_iff in H. destruct H as [_ H].
  now apply andb_true_iff in H.
Qed.

Lemma with_data_same self : with_data self (data self) = self.
Proof. now destruct self. Qed.

Lemma with_data_twice self d d' :
  with_data (with_data self d) d' = with_data self d'.
Proof. reflexivity. Qed.

Lemma for_each_append tr_to segs :
  forall self,
    for_each segs (fun b => data_append (mkSMSData tr_to b)) self
    = (Ok tt, with_data self (data self ++ map (mkSMSData tr_to) segs)).
Proof.
  induction segs as [|b segs IH]; intros self; simpl.
  - unfold ret. now rewrite app_nil_r, with_data_same.
  - unfold bindM, data_append at 1. rewrite IH. simpl.
    now rewrite <- app_assoc.
Qed.

Section AddTheory.

Variable nd : char -> bool.
Variable cp949_encmap : char -> option Z.
Variable ksx1001_decmap : Z -> Z -> option char.

#[local] Abbreviation encode := (euc_kr_encode cp949_encmap).
#[local] Abbreviation slice := (_slice_tr_txtmsg cp949_encmap).

(** [add], case by case. *)
Lemma add_unfold tr_to text auto_slice self :
  add nd cp949_encmap tr_to text auto_slice self =
  match _valid_tr_to nd tr_to with
  | Raise e => (Raise e, self)
  | Ok to =>
      match encode (strip text) with
      | Raise e => (Raise e, self)
      | Ok b =>
          if len b =? 0 then (Raise EmptyMessage, self)
          else if 90 <? len b then
            if negb auto_slice then (Raise MessageTooLong, self)
            else
              match slice text with
              | Raise e => (Raise e, self)
              | Ok segs =>
                  (Ok tt,
                   with_data self (data self ++ map (mkSMSData to) segs))
              end
          else (Ok tt, with_data self (data self ++ [mkSMSData to b]))
      end
  end.
Proof.
  unfold add, bindM, lift, raise.
  destruct (_valid_tr_to nd tr_to) as [to|e]; [|reflexivity].
  destruct (encode (strip text)) as [b|e]; [|reflexivity].
  destruct (len b =? 0); [reflexivity|].
  destruct (90 <? len b); [|reflexivity].
  destruct (negb auto_slice); [reflexivity|].
  destruct (slice text) as [segs|e]; [|reflexivity].
  apply for_each_append.
Qed.

Lemma slice_loop_raises txt :
  forall popped sliced e,
    slice_loop cp949_encmap txt popped sliced = Raise e ->
    e = UnicodeEncodeError.
Proof.
  induction txt as [|c txt IH]; intros popped sliced e; simpl; [discriminate|].
  destruct (44 <? len (popped ++ [c])); [|apply IH].
  destruct (encode (popped ++ [c])) as [b|e'] eqn:E; simpl.
  - destruct ((len b =? 89) || (len b =? 90)); apply IH.
  - intros H; inversion H; subst. eapply encode_raises; eauto.
Qed.

Lemma slice_raises text e : slice text = Raise e -> e = UnicodeEncodeError.
Proof.
  unfold _slice_tr_txtmsg.
  destruct (slice_loop cp949_encmap text [] []) as [[popped sliced]|e'] eqn:L;
    simpl.
  - destruct popped as [|c p]; [discriminate|].
    destruct (encode (c :: p)) as [b|e'] eqn:E; simpl; [discriminate|].
    intros H; inversion H; subst. eapply encode_raises; eauto.
  - intros H; inversion H; subst. eapply slice_loop_raises; eauto.
Qed.

(** C7 (amended): for a recipient the normaliser accepts and a text whose
    stripped form the codec encodes to [b], [add] fails with the
    empty-message error exactly when [b] is empty, and fails with the
    too-long error whenever [b] has more than 90 bytes and slicing is not
    allowed; the queue is unchanged in both cases. *)
Theorem add_errors tr_to text auto_slice self to b :
  _valid_tr_to nd tr_to = Ok to ->
  encode (strip text) = Ok b ->
  (fst (add nd cp949_encmap tr_to text auto_slice self) = Raise EmptyMessage
   <-> len b = 0)
  /\ (len b = 0 ->
      add nd cp949_encmap tr_to text auto_slice self
      = (Raise EmptyMessage, self))
  /\ (90 < len b -> auto_slice = false ->
      add nd cp949_encmap tr_to text auto_slice self
      = (Raise MessageTooLong, self)).
Proof.
  intros V E. rewrite add_unfold, V, E.
  destruct (len b =? 0) eqn:Z0.
  - apply Z.eqb_eq in Z0. repeat split; auto; lia.
  - apply Z.eqb_neq in Z0. repeat split; try lia.
    + destruct (90 <? len b); [|discriminate].
      destruct (negb auto_slice); [discriminate|].
      destruct (slice text) as [segs|e] eqn:S; [discriminate|].
      apply slice_raises in S. subst. discriminate.
    + intros L ->. apply Z.ltb_lt in L. now rewrite L.
Qed.

(** The bound of C3 where the code keeps it: a successful [add] keeps
    every body of the queue between 1 and 90 bytes when it does not slice,
    and when it slices a text of characters of one or two bytes. *)
Theorem add_keeps_body_bound tr_to text auto_slice self self' :
  Forall body_ok (data self) ->
  (auto_slice = true -> forallb (narrow cp949_encmap) text = true) ->
  add nd cp949_encmap tr_to text auto_slice self = (Ok tt, self') ->
  Forall body_ok (data self').
Proof.
  intros Q N H. rewrite add_unfold in H.
  destruct (_valid_tr_to nd tr_to) as [to|]; [|discriminate].
  destruct (encode (strip text)) as [b|]; [|discriminate].
  destruct (len b =? 0) eqn:Z0; [discriminate|]. apply Z.eqb_neq in Z0.
  pose proof (len_nonneg b) as Lb.
  destruct (90 <? len b) eqn:L90.
  - destruct auto_slice; simpl in H; [|discriminate].
    destruct (slice text) as [segs|] eqn:S; [|discriminate].
    inversion H; subst self'; clear H. simpl.
    apply Forall_app. split; auto.
    pose proof (slice_narrow _ _ _ (N eq_refl) S) as F.
    clear S. induction F; simpl; constructor; auto.
  - apply Z.ltb_ge in L90. inversion H; subst self'; clear H. simpl.
    apply Forall_app. split; auto.
    repeat constructor; unfold body_ok; simpl; lia.
Qed.

End AddTheory.

Section SlicedAdd.

Variable nd : char -> bool.
Variable cp949_encmap : char -> option Z.
Variable ksx1001_decmap : Z -> Z -> option char.

(** C2 (amended): for every message whose characters the codec encodes
    and decodes back, the slicer returns segments, and decoding each
    segment and joining the texts in order gives the message. *)
Theorem slice_roundtrip (s : str) :
  forallb (decodes_back cp949_encmap ksx1001_decmap) s = true ->
  exists segs,
    _slice_tr_txtmsg cp949_encmap s = Ok segs /\
    decode_join ksx1001_decmap segs = Ok s.
Proof.
  intros D.
  destruct (slice_chunks cp949_encmap s) as (chunks & segs & S & Sg & _ & C).
  { eapply forallb_decodes_back_encodable; eauto. }
  exists segs. split; auto.
  rewrite <- C. eapply decode_join_segments; eauto. now rewrite C.
Qed.

(** C4 (amended): for a recipient the normaliser accepts and a text of
    characters of one or two bytes which the codec decodes back, whose
    stripped form has more than 90 bytes, [add] with slicing allowed
    appends the slicer's segments of the text: at least two entries, all
    with the normalised recipient, whose bodies decoded and joined give
    the text. *)
Theorem add_sliced (tr_to text to : str) (b : bytes) (self : SMS) :
  _valid_tr_to nd tr_to = Ok to ->
  forallb (narrow cp949_encmap) text = true ->
  forallb (decodes_back cp949_encmap ksx1001_decmap) text = true ->
  euc_kr_encode cp949_encmap (strip text) = Ok b ->
  90 < len b ->
  exists segs,
    add nd cp949_encmap tr_to text true self
    = (Ok tt, with_data self (data self ++ map (mkSMSData to) segs)) /\
    (2 <= List.length segs)%nat /\
    decode_join ksx1001_decmap segs = Ok text.
Proof.
  intros V N D E L.
  destruct (slice_chunks cp949_encmap text (narrow_encodable _ _ N))
    as (chunks & segs & S & Sg & _ & C).
  exists segs. rewrite add_unfold, V, E.
  assert (Z0 : (len b =? 0) = false) by (apply Z.eqb_neq; lia).
  assert (L90 : (90 <? len b) = true) by (apply Z.ltb_lt; lia).
  rewrite Z0, L90, S. simpl. split; [reflexivity|]. split.
  - pose proof (segments_total_len _ _ _ Sg) as T. rewrite C in T.
    pose proof (slice_narrow _ _ _ N S) as F.
    apply encode_len in E.
    destruct (strip_split text) as (x & y & X).
    assert (W : widths cp949_encmap (strip text) <= widths cp949_encmap text).
    { rewrite X at 2. rewrite !widths_app.
      pose proof (widths_nonneg cp949_encmap x).
      pose proof (widths_nonneg cp949_encmap y). lia. }
    destruct segs as [|e1 [|e2 segs]]; simpl in *; try lia.
    inversion F; subst. lia.
  - rewrite <- C. eapply decode_join_segments; eauto. now rewrite C.
Qed.

End SlicedAdd.

(** C2, as stated, fails: U+1F600 has no euc-kr encoding, so the slicer
    raises on the one-character message and returns no segments, whatever
    the mapping tables. *)
Lemma slice_unencodable_raises :
  (forall enc, _slice_tr_txtmsg enc [0x1F600] = Raise UnicodeEncodeError) /\
  ~ (exists enc dec segs,
       _slice_tr_txtmsg enc [0x1F600] = Ok segs /\
       decode_join dec segs = Ok [0x1F600]).
Proof.
  split.
  - intros enc. reflexivity.
  - intros (enc & dec & segs & H & _). discriminate.
Qed.

Lemma slice_roundtrip_witness :
  exists segs,
    _slice_tr_txtmsg sample_encmap sample_text = Ok segs /\
    decode_join sample_decmap segs = Ok sample_text.
Proof.
  apply (slice_roundtrip sample_encmap sample_decmap sample_text).
  vm_compute. reflexivity.
Defined.

(** C3 fails on the code: twelve times U+B620 is 96 bytes, never more
    than 44 characters are in [popped], and the text becomes one queue
    entry of 96 bytes. *)
Lemma add_sliced_body_exceeds_90 :
  exists body,
    add sample_nd sample_encmap (lit "01012345678") (repeat 0xB620 12) true
        sample_sms
    = (Ok tt, with_data sample_sms [mkSMSData (lit "010-1234-5678") body]) /\
    body = concat (repeat [0xA4; 0xD4; 0xA4; 0xA8; 0xA4; 0xC7; 0xA4; 0xB1] 12)
    /\ len body = 96.
Proof. eexists. repeat split. Qed.

(** The same for every table that has U+B620 in the CP949 extension. *)
Lemma add_makeup_unsliced nd enc code self :
  enc 0xB620 = Some code -> Z.land code 0x8000 <> 0 ->
  add nd enc (lit "01012345678") (repeat 0xB620 12) true self
  = (Ok tt,
     with_data self
       (data self ++
        [mkSMSData (lit "010-1234-5678")
           (concat (repeat [0xA4; 0xD4; 0xA4; 0xA8; 0xA4; 0xC7; 0xA4; 0xB1]
                           12))])).
Proof.
  intros E H. apply Z.eqb_neq in H.
  set (body := concat (repeat [0xA4; 0xD4; 0xA4; 0xA8; 0xA4; 0xC7; 0xA4; 0xB1]
                              12)).
  assert (C : euc_kr_encode_char enc 0xB620
              = Some [0xA4; 0xD4; 0xA4; 0xA8; 0xA4; 0xC7; 0xA4; 0xB1]).
  { unfold euc_kr_encode_char. simpl. rewrite E, H. reflexivity. }
  assert (Enc : euc_kr_encode enc (repeat 0xB620 12) = Ok body).
  { cbn [repeat euc_kr_encode]. rewrite C. reflexivity. }
  assert (Sl : _slice_tr_txtmsg enc (repeat 0xB620 12) = Ok [body]).
  { unfold _slice_tr_txtmsg.
    change (slice_loop enc (repeat 0xB620 12) [] [])
      with (@Ok (str * list bytes) (repeat 0xB620 12, [])).
    cbn [bind repeat]. cbn [repeat] in Enc. rewrite Enc. reflexivity. }
  rewrite add_unfold.
  change (_valid_tr_to nd (lit "01012345678"))
    with (@Ok str (lit "010-1234-5678")).
  change (strip (repeat 0xB620 12)) with (repeat 0xB620 12).
  rewrite Enc, Sl. reflexivity.
Qed.

Example makeup_sequence_decodes_back :
  euc_kr_encode sample_encmap [0xB620]
  = Ok [0xA4; 0xD4; 0xA4; 0xA8; 0xA4; 0xC7; 0xA4; 0xB1] /\
  decodes_back sample_encmap sample_decmap 0xB620 = true.
Proof. split; reflexivity. Qed.

(** Why C2 and C4 ask for characters that decode back: the Hangul filler
    U+3164 is encoded as A4 D4, the two bytes that open a make-up
    sequence, and the decoder refuses them. *)
Remark hangul_filler_not_decoded_back :
  euc_kr_encode sample_encmap [0x3164] = Ok [0xA4; 0xD4] /\
  euc_kr_decode sample_decmap [0xA4; 0xD4] = Raise UnicodeDecodeError /\
  decodes_back sample_encmap sample_decmap 0x3164 = false.
Proof. repeat split. Qed.

(** C4, as stated, fails: "a" followed by 95 spaces has 96 bytes, and
    [add] with slicing allowed appends the single entry "a". *)
Lemma add_padded_text_not_sliced :
  (forall enc, exists e,
      euc_kr_encode enc (97 :: repeat 32 95) = Ok e /\ 90 < len e) /\
  (forall nd enc self,
      add nd enc (lit "01012345678") (97 :: repeat 32 95) true self
      = (Ok tt,
         with_data self
           (data self ++ [mkSMSData (lit "010-1234-5678") [97]]))).
Proof.
  split.
  - intros enc. eexists. split; [reflexivity|]. reflexivity.
  - intros nd enc self. reflexivity.
Qed.

Lemma add_sliced_witness :
  exists segs,
    add sample_nd sample_encmap (lit "010 1234 5678") sample_text true
        sample_sms
    = (Ok tt,
       with_data sample_sms
         (data sample_sms ++ map (mkSMSData (lit "010-1234-5678")) segs)) /\
    (2 <= List.length segs)%nat /\
    decode_join sample_decmap segs = Ok sample_text.
Proof.
  destruct (euc_kr_encode sample_encmap (strip sample_text)) as [b|] eqn:E;
    [|discriminate].
  apply (add_sliced sample_nd sample_encmap sample_decmap
           (lit "010 1234 5678") sample_text (lit "010-1234-5678") b).
  - reflexivity.
  - vm_compute. reflexivity.
  - vm_compute. reflexivity.
  - exact E.
  - vm_compute in E. inversion E. reflexivity.
Defined.

(** C7, as stated, fails: a text of one space has one byte, and [add]
    raises the empty-message error, whatever the tables. *)
Lemma add_blank_text_is_empty :
  (forall enc, euc_kr_encode enc (lit " ") = Ok [32]) /\
  (forall nd enc self,
      add nd enc (lit "01012345678") (lit " ") false self
      = (Raise EmptyMessage, self)).
Proof. split; intros; reflexivity. Qed.

Lemma add_errors_witness :
  add sample_nd sample_encmap (lit "01012345678") (lit "   ") true sample_sms
  = (Raise EmptyMessage, sample_sms) /\
  add sample_nd sample_encmap (lit "01012345678") (repeat 97 91) false
    sample_sms
  = (Raise MessageTooLong, sample_sms).
Proof.
  split.
  - apply (add_errors sample_nd sample_encmap (lit "01012345678") (lit "   ")
             true sample_sms (lit "010-1234-5678") []);
      reflexivity.
  - apply (add_errors sample_nd sample_encmap (lit "01012345678")
             (repeat 97 91) false sample_sms (lit "010-1234-5678")
             (repeat 97 91));
      reflexivity.
Defined.

(** ** The response decoder *)

Lemma list_eqb_eq a b : list_eqb a b = true <-> a = b.
Proof.
  unfold list_eqb. destruct (list_eq_dec Z.eq_dec a b); split; auto.
  discriminate.
Qed.

Lemma pkey_eqb_eq k1 k2 : pkey_eqb k1 k2 = true <-> k1 = k2.
Proof.
  destruct k1, k2; simpl; try (split; [discriminate|discriminate]).
  - rewrite Z.eqb_eq. split; [now intros ->|now inversion 1].
  - rewrite list_eqb_eq. split; [now intros ->|now inversion 1].
  - rewrite list_eqb_eq. split; [now intros ->|now inversion 1].
Qed.

Lemma pkey_eqb_refl k : pkey_eqb k k = true.
Proof. now apply pkey_eqb_eq. Qed.

Lemma dict_get_set d k' v k :
  dict_get k (dict_set d k' v)
  = if pkey_eqb k' k then Some v else dict_get k d.
Proof.
  induction d as [|[k0 v0] d IH]; simpl.
  - reflexivity.
  - destruct (pkey_eqb k0 k') eqn:E0; simpl.
    + apply pkey_eqb_eq in E0. subst k'.
      destruct (pkey_eqb k0 k); reflexivity.
    + destruct (pkey_eqb k0 k) eqn:E1; auto.
      apply pkey_eqb_eq in E1. subst k0.
      destruct (pkey_eqb k' k) eqn:E2; auto.
      apply pkey_eqb_eq in E2. subst k'.
      rewrite pkey_eqb_refl in E0. discriminate.
Qed.

Lemma dict_get_app k d1 d2 :
  dict_get k (d1 ++ d2)
  = match dict_get k d1 with Some v => Some v | None => dict_get k d2 end.
Proof.
  induction d1 as [|[k0 v0] d1 IH]; simpl; auto.
  destruct (pkey_eqb k0 k); auto.
Qed.

(** Filling a dict: the last item with a key decides its value. *)
Lemma dict_get_fill items :
  forall r k,
    dict_get k (dict_fill r items)
    = match dict_get k (rev items) with
      | Some v => Some v
      | None => dict_get k r
      end.
Proof.
  unfold dict_fill.
  induction items as [|[k0 v0] items IH]; intros r k; simpl; auto.
  rewrite IH, dict_get_app, dict_get_set. simpl.
  destruct (dict_get k (rev items)); auto.
  destruct (pkey_eqb k0 k); auto.
Qed.

(** The loop on items that all decode. *)
Lemma decode_items_ok items :
  forall r,
    forallb item_decodable items = true ->
    decode_items items r = Ok (dict_fill r (map item_text items)).
Proof.
  induction items as [|[k v] items IH]; intros r D; simpl in *; auto.
  apply andb_true_iff in D. destruct D as [D1 D2].
  apply andb_true_iff in D1. destruct D1 as [Dk Dv]. simpl in *.
  assert (K : decode_key k = Ok (key_text k)).
  { destruct k; simpl in *; auto. destruct (utf8_decode b); auto; discriminate. }
  assert (V : decode_value v = Ok (value_text v)).
  { destruct v; simpl in *; auto. destruct (utf8_decode b); auto; discriminate. }
  rewrite K, V. simpl. now rewrite IH.
Qed.

(** The loop on items of which one does not decode. *)
Lemma decode_items_raises items :
  forall r,
    forallb item_decodable items = false ->
    decode_items items r = Raise UnicodeDecodeError.
Proof.
  induction items as [|[k v] items IH]; intros r D; simpl in *;
    [discriminate|].
  unfold item_decodable in D at 1. simpl in D.
  destruct k as [i|b|s]; simpl in *.
  - destruct v; simpl in *; try (now apply IH).
    destruct (utf8_decode b); simpl in *; auto.
  - destruct (utf8_decode b); simpl in *; auto.
    destruct v; simpl in *; try (now apply IH).
    destruct (utf8_decode b0); simpl in *; auto.
  - destruct v; simpl in *; try (now apply IH).
    destruct (utf8_decode b); simpl in *; auto.
Qed.

Example utf8_decode_hangul :
  utf8_decode [0xED; 0x95; 0x9C; 0xEA; 0xB8; 0x80; 0x21]
  = Some [0xD55C; 0xAE00; 0x21].
Proof. reflexivity. Qed.

Example utf8_decode_rejects_euckr : utf8_decode [0xC7; 0xD1] = None.
Proof. reflexivity. Qed.

Section DecoderTheory.

Variable php_loads : bytes -> result pval.

(** C1 (amended): for an input that [phpserialize.loads] turns into a
    mapping whose [bytes] keys and values are all valid UTF-8, the decoder
    does not raise, and it returns the mapping in which every [bytes] key
    and value has been decoded as UTF-8 text and every other key and value
    is kept unchanged; when a [bytes] key or value is not valid UTF-8 it is
    not kept: the decoder raises [UnicodeDecodeError]. *)
Theorem decode_response_text (content : bytes) (items : pdict) :
  php_loads content = Ok (PDict items) ->
  (forallb item_decodable items = true ->
   exists r,
     _decode_response php_loads content = Ok r /\
     r = dict_fill [] (map item_text items) /\
     forall k, dict_get k r = dict_get k (rev (map item_text items))) /\
  (forallb item_decodable items = false ->
   _decode_response php_loads content = Raise UnicodeDecodeError).
Proof.
  intros L. unfold _decode_response. rewrite L. simpl. split; intros D.
  - exists (dict_fill [] (map item_text items)).
    rewrite decode_items_ok by assumption. repeat split.
    intros k. rewrite dict_get_fill.
    now destruct (dict_get k (rev (map item_text items))).
  - now apply decode_items_raises.
Qed.

End DecoderTheory.

(** C1, as stated, fails: the value of "msg" is a [bytes] that is not
    valid UTF-8; it is not kept as it is, the decoder raises. *)
Lemma decode_response_invalid_utf8_raises :
  sample_php_loads sample_reply_euckr
  = Ok (PDict [(KBytes (lit "msg"), PBytes [0xC7; 0xD1])]) /\
  value_text (PBytes [0xC7; 0xD1]) = PBytes [0xC7; 0xD1] /\
  _decode_response sample_php_loads sample_reply_euckr
  = Raise UnicodeDecodeError.
Proof. repeat split. Qed.

Lemma decode_response_text_witness :
  exists r,
    _decode_response sample_php_loads sample_reply_ok = Ok r /\
    r = [(KStr (lit "result"), PStr (lit "OK")); (KStr (lit "cnt"), PInt 1)].
Proof.
  destruct (decode_response_text sample_php_loads sample_reply_ok
              [(KBytes (lit "result"), PBytes (lit "OK"));
               (KBytes (lit "cnt"), PInt 1)] eq_refl) as [A _].
  destruct (A eq_refl) as (r & H & E & _).
  exists r. split; [exact H|]. rewrite E. reflexivity.
Defined.

(** ** Sending *)

Section SendTheory.

Variable cp949_encmap : char -> option Z.
Variable Net : Type.
Variable gateway : Net -> post_data -> result bytes * Net.
Variable php_loads : bytes -> result pval.

#[local] Abbreviation world := (world Net).
#[local] Abbreviation comment_field := (comment_field cp949_encmap).
#[local] Abbreviation answered := (answered php_loads).
#[local] Abbreviation failed := (failed php_loads).

(** The loop: it touches the client not at all; when it returns, it has
    made one POST per entry, in order, and added one decoded response per
    entry; when it raises, the last POST it made is the one that failed. *)
Lemma send_loop_spec self d c entries :
  forall acc obj (w : world),
    match send_loop Net gateway php_loads self d c entries acc (obj, w) with
    | (Ok rs, (obj', w')) =>
        obj' = obj /\
        exists log new,
          posts Net w' = posts Net w ++ log /\ rs = acc ++ new /\
          map fst log = map (post_of self d c) entries /\
          Forall2 answered log new
    | (Raise e, (obj', w')) =>
        obj' = obj /\
        exists log last new,
          posts Net w' = posts Net w ++ log ++ [last] /\
          map fst (log ++ [last])
          = firstn (S (List.length log)) (map (post_of self d c) entries) /\
          (List.length log < List.length entries)%nat /\
          Forall2 answered log new /\ failed last e
    end.
Proof.
  induction entries as [|x entries IH]; intros acc obj w; simpl.
  - split; auto. exists [], []. rewrite !app_nil_r. repeat split; constructor.
  - unfold bindM at 1. unfold req_post at 1.
    fold (post_of self d c x).
    destruct (gateway (net Net w) (post_of self d c x)) as [[content|e] n] eqn:G.
    + unfold bindM at 1, lift at 1.
      destruct (_decode_response php_loads content) as [r|e] eqn:D.
      * specialize (IH (acc ++ [r]) obj
                      (mkWorld Net n
                         (posts Net w ++ [(post_of self d c x, Ok content)]))).
        destruct (send_loop Net gateway php_loads self d c entries (acc ++ [r]) _)
          as [[rs|e] [obj' w']].
        -- destruct IH as (-> & log & new & P & R & M & F). split; auto.
           exists ((post_of self d c x, Ok content) :: log), (r :: new).
           simpl in *. rewrite P, R, M, <- !app_assoc. repeat split.
           constructor; auto. exists content. auto.
        -- destruct IH as (-> & log & last & new & P & M & L & F & E).
           split; auto.
           exists ((post_of self d c x, Ok content) :: log), last, (r :: new).
           simpl in *. rewrite P, <- !app_assoc. repeat split; auto.
           ++ now rewrite M.
           ++ lia.
           ++ constructor; auto. exists content. auto.
      * split; [reflexivity|].
        exists [], (post_of self d c x, Ok content), []. simpl.
        split; [reflexivity|]. split; [reflexivity|].
        split; [lia|]. split; [constructor|].
        right. exists content. auto.
    + split; [reflexivity|].
      exists [], (post_of self d c x, Raise e), []. simpl.
      split; [reflexivity|]. split; [reflexivity|].
      split; [lia|]. split; [constructor|].
      now left.
Qed.

(** [send], case by case. *)
Lemma send_unfold now tr_date tr_comment self (w : world) :
  send cp949_encmap Net gateway php_loads now tr_date tr_comment (self, w) =
  match data self with
  | [] => (Raise EmptyQueue, (self, w))
  | _ :: _ =>
      match schedule now tr_date with
      | Raise e => (Raise e, (self, w))
      | Ok d =>
          match comment_field tr_comment with
          | Raise e => (Raise e, (self, w))
          | Ok c =>
              match send_loop Net gateway php_loads self d c (data self) []
                      (self, w) with
              | (Ok rs, (obj, w')) => (Ok rs, (with_data obj [], w'))
              | (Raise e, st) => (Raise e, st)
              end
          end
      end
  end.
Proof.
  unfold send, schedule, comment_field, bindM, self_fields, ret,
    raise, lift, data_clear.
  cbn [fst snd].
  destruct (data self) as [|x q]; [reflexivity|].
  cbv beta iota. generalize (x :: q). intros entries.
  destruct tr_date as [[t|t offset]|]; [destruct (t <? now + 180000000)| |];
    try reflexivity;
    (destruct tr_comment as [|s|b];
     try (destruct (euc_kr_encode cp949_encmap s)); cbn [bind];
     try reflexivity;
     match goal with
     | |- context [send_loop ?a1 ?a2 ?a3 ?a4 ?a5 ?a6 ?a7 ?a8 ?a9] =>
         destruct (send_loop a1 a2 a3 a4 a5 a6 a7 a8 a9)
           as [[rs|err] [obj w']]
     end; reflexivity).
Qed.

End SendTheory.

Section SendClaims.

Variable cp949_encmap : char -> option Z.
Variable Net : Type.
Variable gateway : Net -> post_data -> result bytes * Net.
Variable php_loads : bytes -> result pval.

#[local] Abbreviation world := (world Net).
#[local] Abbreviation send := (send cp949_encmap Net gateway php_loads).
#[local] Abbreviation send_loop := (send_loop Net gateway php_loads).
#[local] Abbreviation reliable := (reliable Net gateway php_loads).
#[local] Abbreviation answered := (answered php_loads).
#[local] Abbreviation failed := (failed php_loads).
#[local] Abbreviation comment_field := (comment_field cp949_encmap).

Lemma send_loop_reliable self d c entries :
  reliable ->
  forall acc obj (w : world),
    exists rs st', send_loop self d c entries acc (obj, w) = (Ok rs, st').
Proof.
  intros R. induction entries as [|x entries IH]; intros acc obj w; simpl.
  - unfold ret. eauto.
  - unfold bindM at 1. unfold req_post at 1.
    destruct (R (net Net w)
                (mkPost (tr_id self) (tr_key self) (tr_from self) (tr_to x)
                   (tr_txtmsg x) d c (tr_ip self)))
      as (content & n' & r & G & D).
    rewrite G. unfold bindM at 1, lift at 1. rewrite D. apply IH.
Qed.

(** C6: a [send] that returns has found the queue non-empty, has made
    exactly one POST per queue entry, in queue order and with the fields
    of the entry, returns the decoded responses of these POSTs in the same
    order, and leaves the queue empty, whatever the responses say; and
    [send] does return when the queue is not empty, the schedule and the
    comment are accepted and the gateway answers every POST with a body
    that decodes. *)
Theorem send_posts_every_entry (now : Z) (tr_date : option datetime)
  (tr_comment : comment) (self : SMS) (w : world) :
  (forall rs st',
      send now tr_date tr_comment (self, w) = (Ok rs, st') ->
      data self <> [] /\
      fst st' = with_data self [] /\
      List.length rs = List.length (data self) /\
      exists d c log,
        schedule now tr_date = Ok d /\ comment_field tr_comment = Ok c /\
        posts Net (snd st') = posts Net w ++ log /\
        map fst log = map (post_of self d c) (data self) /\
        Forall2 answered log rs) /\
  (data self <> [] ->
   (exists d, schedule now tr_date = Ok d) ->
   (exists c, comment_field tr_comment = Ok c) ->
   reliable ->
   exists rs st', send now tr_date tr_comment (self, w) = (Ok rs, st')).
Proof.
  split.
  - intros rs st' H. rewrite send_unfold in H.
    destruct (data self) as [|x q] eqn:Q; [discriminate|].
    destruct (schedule now tr_date) as [d|] eqn:S; [|discriminate].
    destruct (comment_field tr_comment) as [c|] eqn:C; [|discriminate].
    pose proof (send_loop_spec Net gateway php_loads self d c (x :: q)
                  [] self w) as L.
    destruct (send_loop self d c (x :: q) [] (self, w)) as [[rs'|e] [obj w']];
      [|discriminate].
    inversion H; subst; clear H.
    destruct L as (-> & log & new & P & R & M & F). simpl in R. subst new.
    split; [discriminate|]. split; [reflexivity|]. split.
    + apply Forall2_length in F. rewrite <- F.
      rewrite <- (length_map fst), M. now rewrite length_map.
    + exists d, c, log. auto.
  - intros Q (d & S) (c & C) R. rewrite send_unfold, S, C.
    destruct (data self) as [|x q]; [contradiction|].
    destruct (send_loop_reliable self d c (x :: q) R [] self w)
      as (rs & [obj w'] & L).
    rewrite L. eauto.
Qed.

(** C8 (amended): on an empty queue [send] raises the empty-queue error;
    on a queue that is not empty, with a naive scheduled time less than
    three minutes after the current time, it raises the scheduling error,
    and with a timezone-aware scheduled time, whichever it is, the
    comparison with the current time raises [TypeError]; in the three
    cases the client and the world (the gateway and the record of POSTs)
    are as before. *)
Theorem send_preconditions (now : Z) (tr_date : option datetime)
  (tr_comment : comment) (self : SMS) (w : world) :
  (data self = [] ->
   send now tr_date tr_comment (self, w) = (Raise EmptyQueue, (self, w))) /\
  (data self <> [] ->
   forall t, tr_date = Some (Naive t) -> t < now + 180000000 ->
   send now tr_date tr_comment (self, w)
   = (Raise SchedulingTooSoon, (self, w))) /\
  (data self <> [] ->
   forall t utcoffset, tr_date = Some (Aware t utcoffset) ->
   send now tr_date tr_comment (self, w) = (Raise TypeError, (self, w))).
Proof.
  repeat split.
  - intros Q. now rewrite send_unfold, Q.
  - intros Q t -> T. rewrite send_unfold.
    destruct (data self); [contradiction|].
    simpl. apply Z.ltb_lt in T. now rewrite T.
  - intros Q t utcoffset ->. rewrite send_unfold.
    destruct (data self); [contradiction|]. reflexivity.
Qed.

(** C10: when [send] raises, the client, its queue included, is as it was
    before the call (the outcome is the exception: no response is
    returned); either nothing was posted, or the POST recorded last is the
    one that raised or whose body did not decode, the POSTs before it
    having been answered. *)
Theorem send_raise_keeps_queue (now : Z) (tr_date : option datetime)
  (tr_comment : comment) (self : SMS) (w : world) (e : exn)
  (st' : SMS * world) :
  send now tr_date tr_comment (self, w) = (Raise e, st') ->
  fst st' = self /\
  (snd st' = w \/
   exists log last collected,
     posts Net (snd st') = posts Net w ++ log ++ [last] /\
     (List.length log < List.length (data self))%nat /\
     Forall2 answered log collected /\ failed last e).
Proof.
  intros H. rewrite send_unfold in H.
  destruct (data self) as [|x q] eqn:Q.
  { inversion H; subst. auto. }
  destruct (schedule now tr_date) as [d|] eqn:S.
  2:{ inversion H; subst. auto. }
  destruct (comment_field tr_comment) as [c|] eqn:C.
  2:{ inversion H; subst. auto. }
  pose proof (send_loop_spec Net gateway php_loads self d c (x :: q)
                [] self w) as L.
  destruct (send_loop self d c (x :: q) [] (self, w)) as [[rs'|e'] [obj w']];
    [discriminate|].
  inversion H; subst; clear H.
  destruct L as (-> & log & last & new & P & M & Len & F & E).
  split; [reflexivity|]. right. exists log, last, new. auto.
Qed.

End SendClaims.


Lemma sample_gateway_reliable : reliable nat sample_gateway sample_php_loads.
Proof.
  intros n p. unfold sample_gateway.
  destruct (Nat.eqb n 1); do 3 eexists; split; reflexivity.
Qed.

Lemma send_posts_every_entry_witness :
  exists rs st',
    send sample_encmap nat sample_gateway sample_php_loads
      0 None (CStr (lit "memo")) (sample_queue, sample_world) = (Ok rs, st') /\
    data (fst st') = [] /\
    List.length (posts nat (snd st')) = 2%nat /\
    rs = [[(KStr (lit "result"), PStr (lit "OK")); (KStr (lit "cnt"), PInt 1)];
          [(KStr (lit "result"), PStr (lit "ERROR"))]].
Proof.
  destruct (send_posts_every_entry sample_encmap nat sample_gateway
              sample_php_loads 0 None (CStr (lit "memo")) sample_queue
              sample_world) as [A B].
  destruct B as (rs & st' & H).
  - discriminate.
  - eexists. reflexivity.
  - eexists. reflexivity.
  - apply sample_gateway_reliable.
  - exists rs, st'.
    destruct (A rs st' H) as (_ & Q & _ & d & c & log & _ & _ & P & M & _).
    split; [exact H|]. split; [now rewrite Q|]. split.
    + rewrite P, length_app, <- (length_map fst log), M. reflexivity.
    + vm_compute in H. now inversion H.
Defined.

(** C8, as stated, fails: on a queue that is not empty, a timezone-aware
    scheduled time, whatever it is and so also one less than three
    minutes after the current time, is answered with [TypeError], not
    with the scheduling error. *)
Lemma send_aware_date_raises_type_error :
  (forall enc Net gateway loads now t utcoffset tr_comment w,
      send enc Net gateway loads now (Some (Aware t utcoffset)) tr_comment
        (sample_queue, w)
      = (Raise TypeError, (sample_queue, w))) /\
  TypeError <> SchedulingTooSoon.
Proof. split; [reflexivity|discriminate]. Qed.

Lemma send_preconditions_witness :
  send sample_encmap nat sample_gateway sample_php_loads
    1000 None CNone (sample_sms, sample_world)
  = (Raise EmptyQueue, (sample_sms, sample_world)) /\
  send sample_encmap nat sample_gateway sample_php_loads
    1000 (Some (Naive 180000999)) CNone (sample_queue, sample_world)
  = (Raise SchedulingTooSoon, (sample_queue, sample_world)) /\
  send sample_encmap nat sample_gateway sample_php_loads
    1000 (Some (Aware 180000999 32400000000)) CNone
    (sample_queue, sample_world)
  = (Raise TypeError, (sample_queue, sample_world)).
Proof.
  split; [|split].
  - apply (send_preconditions sample_encmap nat sample_gateway
             sample_php_loads 1000 None CNone sample_sms sample_world).
    reflexivity.
  - apply (proj1 (proj2 (send_preconditions sample_encmap nat sample_gateway
                           sample_php_loads 1000 (Some (Naive 180000999))
                           CNone sample_queue sample_world)))
      with (t := 180000999);
      [discriminate|reflexivity|lia].
  - apply (proj2 (proj2 (send_preconditions sample_encmap nat sample_gateway
                           sample_php_loads 1000
                           (Some (Aware 180000999 32400000000))
                           CNone sample_queue sample_world)))
      with (t := 180000999) (utcoffset := 32400000000);
      [discriminate|reflexivity].
Defined.

Lemma send_raise_keeps_queue_witness :
  fst (snd (send sample_encmap nat flaky_gateway sample_php_loads
              0 None CNone (sample_queue, sample_world))) = sample_queue /\
  (snd (snd (send sample_encmap nat flaky_gateway sample_php_loads
               0 None CNone (sample_queue, sample_world))) = sample_world \/
   exists log last collected,
     posts nat (snd (snd (send sample_encmap nat flaky_gateway sample_php_loads
                            0 None CNone (sample_queue, sample_world))))
     = posts nat sample_world ++ log ++ [last] /\
     (List.length log < List.length (data sample_queue))%nat /\
     Forall2 (answered sample_php_loads) log collected /\
     failed sample_php_loads last (LibraryError "ConnectionError")).
Proof.
  apply (send_raise_keeps_queue sample_encmap nat flaky_gateway
           sample_php_loads 0 None CNone sample_queue sample_world
           (LibraryError "ConnectionError")).
  reflexivity.
Defined.

(** * Further properties of the code *)

(** ** The number normaliser *)

Lemma sample_nd_not_space c : sample_nd c = true -> isspace c = false.
Proof.
  unfold sample_nd, isspace. intros H.
  apply orb_true_iff in H.
  destruct H as [H|H]; apply andb_true_iff in H; destruct H as [H1 H2];
    apply Z.leb_le in H1, H2;
    repeat match goal with
           | |- context [?a <=? ?b] => destruct (Z.leb_spec a b); try lia
           | |- context [?a =? ?b] => destruct (Z.eqb_spec a b); try lia
           end; reflexivity.
Qed.

Lemma lstrip_app s t :
  lstrip (s ++ t)
  = match lstrip s with [] => lstrip t | _ :: _ => lstrip s ++ t end.
Proof.
  induction s as [|c s IH]; simpl; [now destruct (lstrip t)|].
  destruct (isspace c); auto.
Qed.

Lemma lstrip_spaces a : forallb isspace a = true -> lstrip a = [].
Proof.
  induction a as [|c a IH]; simpl; auto.
  intros H. apply andb_true_iff in H. destruct H as [H1 H2].
  rewrite H1. auto.
Qed.

Lemma rstrip_app_spaces s b :
  forallb isspace b = true -> rstrip (s ++ b) = rstrip s.
Proof.
  intros H. unfold rstrip. rewrite rev_app_distr, lstrip_app.
  rewrite lstrip_spaces; auto.
  rewrite forallb_forall in *. intros x Hx. apply H. now apply in_rev.
Qed.

Lemma rstrip_nil_or s : rstrip s = [] \/ exists l c, rstrip s = l ++ [c].
Proof.
  destruct (rstrip s) as [|a l] using rev_ind; eauto.
Qed.

(** Whitespace around a text does not change what [strip] returns. *)
Lemma strip_padding a s b :
  forallb isspace a = true -> forallb isspace b = true ->
  strip (a ++ s ++ b) = strip s.
Proof.
  intros A B. unfold strip.
  rewrite lstrip_app, (lstrip_spaces a A), (lstrip_app s b).
  destruct (lstrip s) as [|c t] eqn:L.
  - rewrite (lstrip_spaces b B). reflexivity.
  - now apply rstrip_app_spaces.
Qed.

(** A text that neither begins nor ends with whitespace is its own
    [strip]. *)
Lemma strip_fixed c s l d :
  s = c :: l -> s = removelast s ++ [d] ->
  isspace c = false -> isspace d = false -> strip s = s.
Proof.
  intros E1 E2 C D. unfold strip.
  assert (L : lstrip s = s) by (subst s; simpl; now rewrite C).
  rewrite L. unfold rstrip. rewrite E2 at 1.
  rewrite rev_app_distr. simpl. rewrite D. simpl.
  rewrite rev_involutive. now rewrite <- E2.
Qed.

Section NormaliserMore.

Variable nd : char -> bool.

(** No decimal digit of the Unicode database is a whitespace character. *)
Hypothesis nd_not_space : forall c, nd c = true -> isspace c = false.

Lemma digit_not_space c : isdecimal nd c = true -> isspace c = false.
Proof.
  intros D. apply (digit_not_sep nd nd_not_space) in D.
  unfold is_sep in D. apply orb_false_iff in D. destruct D as [D _].
  apply orb_false_iff in D. now destruct D.
Qed.

(** X1: whatever way the stripped input is read along the pattern, the
    normaliser returns the prefix of that reading (or "010"), its middle
    group and its final group, joined by '-'. *)
Theorem valid_tr_to_of_parse (s pre sep1 mid sep2 fin : str) :
  number_parse nd (strip s) pre sep1 mid sep2 fin ->
  _valid_tr_to nd s
  = Ok (match pre with [] => lit "010" | _ :: _ => pre end
        ++ lit "-" ++ mid ++ lit "-" ++ fin).
Proof.
  intros P.
  destruct (re_match (PATTERN_NUM nd) (strip s)) as [g|] eqn:E.
  - destruct (valid_tr_to_parse nd s g E)
      as (pre' & sep1' & mid' & sep2' & fin' & P' & R).
    destruct (number_parse_unique nd nd_not_space _ _ _ _ _ _ _ _ _ _ _ P P')
      as (-> & _ & -> & _ & ->).
    exact R.
  - exfalso. apply (number_shape_match nd (strip s)); [|exact E].
    red. eauto 8.
Qed.

(** X2: the normaliser returns its own results unchanged. *)
Theorem valid_tr_to_idempotent (s r : str) :
  _valid_tr_to nd s = Ok r -> _valid_tr_to nd r = Ok r.
Proof.
  intros H.
  destruct (re_match (PATTERN_NUM nd) (strip s)) as [g|] eqn:E.
  2:{ unfold _valid_tr_to in H. rewrite E in H. discriminate. }
  destruct (valid_tr_to_parse nd s g E)
    as (pre & sep1 & mid & sep2 & fin & P & R).
  rewrite R in H. inversion H; subst r. clear H R E g.
  destruct P as (_ & Hpre & _ & Dm & Lm & _ & Df & Lf).
  set (p0 := match pre with [] => lit "010" | _ :: _ => pre end) in *.
  assert (P0 : opt_prefix nd p0 /\ exists d, p0 = [48; d; 48]).
  { destruct Hpre as [-> | (d & D & ->)]; simpl.
    - split; [right|]; exists 49; auto.
    - split; [right|]; exists d; auto. }
  destruct P0 as (P0 & d0 & E0).
  assert (Par : number_parse nd (p0 ++ lit "-" ++ mid ++ lit "-" ++ fin)
                  p0 (lit "-") mid (lit "-") fin).
  { repeat split; auto; right; exists 45; auto. }
  destruct fin as [|f1 [|f2 [|f3 [|f4 [|f5 fin]]]]]; try discriminate.
  simpl in Df. repeat (apply andb_true_iff in Df; destruct Df as [? Df]).
  assert (St : strip (p0 ++ lit "-" ++ mid ++ lit "-" ++ [f1; f2; f3; f4])
               = p0 ++ lit "-" ++ mid ++ lit "-" ++ [f1; f2; f3; f4]).
  { apply (strip_fixed 48 _ ([d0; 48] ++ lit "-" ++ mid ++ lit "-"
                                ++ [f1; f2; f3; f4]) f4).
    - rewrite E0. reflexivity.
    - replace (p0 ++ lit "-" ++ mid ++ lit "-" ++ [f1; f2; f3; f4])
        with ((p0 ++ lit "-" ++ mid ++ lit "-" ++ [f1; f2; f3]) ++ [f4])
        by (rewrite <- !app_assoc; reflexivity).
      now rewrite removelast_last.
    - reflexivity.
    - now apply digit_not_space. }
  rewrite <- St in Par.
  destruct (re_match (PATTERN_NUM nd)
              (strip (p0 ++ lit "-" ++ mid ++ lit "-" ++ [f1; f2; f3; f4])))
    as [g|] eqn:E.
  - destruct (valid_tr_to_parse nd _ g E)
      as (pre' & sep1' & mid' & sep2' & fin' & P' & R).
    destruct (number_parse_unique nd nd_not_space _ _ _ _ _ _ _ _ _ _ _ Par P')
      as (<- & _ & <- & _ & <-).
    change (_valid_tr_to nd
              (p0 ++ lit "-" ++ mid ++ lit "-" ++ [f1; f2; f3; f4])
            = Ok (p0 ++ lit "-" ++ mid ++ lit "-" ++ [f1; f2; f3; f4])).
    rewrite R. rewrite E0. reflexivity.
  - exfalso. apply (number_shape_match nd _) in E; auto. red. eauto 8.
Qed.

End NormaliserMore.

(** X3: whitespace around the recipient does not matter: the padded
    input is accepted exactly when the input is, with the same result. *)
Theorem valid_tr_to_ignores_padding (nd : char -> bool) (a s b r : str) :
  forallb isspace a = true -> forallb isspace b = true ->
  (_valid_tr_to nd (a ++ s ++ b) = Ok r <-> _valid_tr_to nd s = Ok r).
Proof.
  intros A B. unfold _valid_tr_to. rewrite (strip_padding a s b A B).
  destruct (re_match (PATTERN_NUM nd) (strip s)); [reflexivity|].
  split; discriminate.
Qed.

(** X4: an input whose stripped form holds a character that is neither a
    digit nor a separator, or has fewer than 7 or more than 13
    characters, is rejected with the invalid-number error. *)
Theorem valid_tr_to_rejects (nd : char -> bool) (s : str) :
  (exists c, In c (strip s) /\ isdecimal nd c = false /\ is_sep c = false)
  \/ (List.length (strip s) < 7)%nat \/ (13 < List.length (strip s))%nat ->
  _valid_tr_to nd s = Raise (InvalidNumber s).
Proof.
  intros H.
  destruct (re_match (PATTERN_NUM nd) (strip s)) as [g|] eqn:E.
  2:{ unfold _valid_tr_to. now rewrite E. }
  exfalso.
  destruct (re_match_number nd s g E)
    as (pre & sep1 & mid & sep2 & fin & P & _).
  destruct P as (Es & Hpre & S1 & Dm & Lm & S2 & Df & Lf).
  assert (Lp : (List.length pre = 0 \/ List.length pre = 3)%nat).
  { destruct Hpre as [-> | (d & _ & ->)]; auto. }
  assert (L1 : (List.length sep1 <= 1)%nat).
  { destruct S1 as [-> | (c & _ & ->)]; simpl; lia. }
  assert (L2 : (List.length sep2 <= 1)%nat).
  { destruct S2 as [-> | (c & _ & ->)]; simpl; lia. }
  destruct H as [(c & I & D & Sp) | L].
  - rewrite Es in I. repeat (apply in_app_or in I; destruct I as [I|I]).
    + destruct Hpre as [-> | (d & Dd & ->)]; [destruct I|].
      simpl in I. destruct I as [<- | [<- | [<- | []]]]; try discriminate.
      congruence.
    + destruct S1 as [-> | (x & X & ->)]; [destruct I|].
      destruct I as [<- | []]. congruence.
    + rewrite forallb_forall in Dm. rewrite (Dm c I) in D. discriminate.
    + destruct S2 as [-> | (x & X & ->)]; [destruct I|].
      destruct I as [<- | []]. congruence.
    + rewrite forallb_forall in Df. rewrite (Df c I) in D. discriminate.
  - rewrite Es, !length_app in L. lia.
Qed.

Lemma valid_tr_to_of_parse_witness :
  _valid_tr_to sample_nd (lit "  1234.5678") = Ok (lit "010-1234-5678").
Proof.
  apply (valid_tr_to_of_parse sample_nd sample_nd_not_space
           (lit "  1234.5678") [] [] (lit "1234") (lit ".") (lit "5678")).
  repeat split; auto.
  - now left.
  - now left.
  - right. exists 46. auto.
Defined.

Lemma valid_tr_to_idempotent_witness :
  _valid_tr_to sample_nd (lit "010-123-4567") = Ok (lit "010-123-4567").
Proof.
  apply (valid_tr_to_idempotent sample_nd sample_nd_not_space
           (lit " 010.123 4567") (lit "010-123-4567")).
  reflexivity.
Defined.

Lemma valid_tr_to_ignores_padding_witness :
  _valid_tr_to sample_nd (lit "  " ++ lit "0101234567" ++ [9; 10])
  = Ok (lit "010-123-4567")
  <-> _valid_tr_to sample_nd (lit "0101234567") = Ok (lit "010-123-4567").
Proof.
  apply (valid_tr_to_ignores_padding sample_nd (lit "  ") (lit "0101234567")
           [9; 10] (lit "010-123-4567")); reflexivity.
Defined.

Lemma valid_tr_to_rejects_witness :
  _valid_tr_to sample_nd (lit "010-1234-567a")
  = Raise (InvalidNumber (lit "010-1234-567a")).
Proof.
  apply (valid_tr_to_rejects sample_nd (lit "010-1234-567a")).
  left. exists 97. repeat split; try reflexivity.
  vm_compute. tauto.
Defined.

(** ** The slicer *)

Section SlicerMore.

Variable cp949_encmap : char -> option Z.

#[local] Abbreviation encode := (euc_kr_encode cp949_encmap).
#[local] Abbreviation slice := (_slice_tr_txtmsg cp949_encmap).
#[local] Abbreviation segments_of := (segments_of cp949_encmap).

(** The loop on any input: when it ends without raising, the segments it
    has added are the encodings of consecutive chunks of more than 44
    characters, each of 89 or 90 bytes, and [popped] holds the rest. *)
Lemma slice_loop_closed txt :
  forall popped sliced popped' sliced',
    slice_loop cp949_encmap txt popped sliced = Ok (popped', sliced') ->
    exists chunks new,
      sliced' = sliced ++ new /\ segments_of chunks new /\
      popped ++ txt = concat chunks ++ popped' /\
      Forall (fun ch => 44 < len ch) chunks /\
      Forall (fun e => len e = 89 \/ len e = 90) new.
Proof.
  induction txt as [|c txt IH]; intros popped sliced popped' sliced' L;
    simpl in L.
  - inversion L; subst. exists [], []. rewrite !app_nil_r.
    repeat split; constructor.
  - replace (popped ++ c :: txt) with ((popped ++ [c]) ++ txt)
      by now rewrite <- app_assoc.
    destruct (44 <? len (popped ++ [c])) eqn:Long; [|now apply IH].
    destruct (encode (popped ++ [c])) as [e|] eqn:He; [|discriminate].
    simpl in L.
    destruct ((len e =? 89) || (len e =? 90)) eqn:Close; [|now apply IH].
    apply IH in L. destruct L as (chunks & new & -> & S & C & N & F).
    exists ((popped ++ [c]) :: chunks), (e :: new).
    rewrite <- app_assoc. simpl in *. repeat split; auto.
    + constructor; auto.
    + now rewrite C, app_assoc.
    + constructor; auto. now apply Z.ltb_lt.
    + constructor; auto.
      apply orb_true_iff in Close.
      destruct Close as [X|X]; apply Z.eqb_eq in X; auto.
Qed.

Lemma Forall_removelast {A} (P : A -> Prop) l :
  Forall P l -> Forall P (removelast l).
Proof.
  induction 1 as [|x l Hx Hl IH]; simpl; auto. destruct l; auto.
Qed.

Lemma segments_concat chunks :
  forall segs,
    segments_of chunks segs -> encode (concat chunks) = Ok (concat segs).
Proof.
  induction chunks as [|ch chunks IH]; intros segs S; inversion S; subst.
  - reflexivity.
  - simpl. rewrite encode_app.
    match goal with H : encode ch = Ok _ |- _ => rewrite H end.
    simpl. now rewrite (IH l').
Qed.

Lemma encode_cons_nonempty c s e : encode (c :: s) = Ok e -> e <> [].
Proof.
  simpl. unfold euc_kr_encode_char.
  destruct (c <? 0x80).
  { destruct (encode s); simpl; [|discriminate]. intros H; inversion H.
    discriminate. }
  destruct (0xFFFF <? c); [discriminate|].
  destruct (cp949_encmap c) as [code|]; [|discriminate].
  destruct (Z.land code 0x8000 =? 0);
    (destruct (encode s); simpl; [|discriminate]; intros H; inversion H;
     discriminate).
Qed.

Lemma slice_ok_encode s segs :
  slice s = Ok segs -> encode s = Ok (concat segs).
Proof.
  unfold _slice_tr_txtmsg. intros H.
  apply bind_ok in H. destruct H as ([popped sliced] & L & H).
  apply slice_loop_closed in L.
  destruct L as (chunks & new & -> & S & C & _ & _).
  simpl in C, H. rewrite C, encode_app, (segments_concat chunks new S).
  simpl. destruct popped as [|c p].
  - injection H as <-. simpl. now rewrite app_nil_r.
  - apply bind_ok in H. destruct H as (e & He & H). injection H as <-.
    rewrite He. simpl. rewrite concat_app. simpl. now rewrite app_nil_r.
Qed.

(** X5: the slicer cuts the encoding of the text: it returns segments
    exactly when the text can be encoded, the segments joined are the
    encoding of the text, and none of them is empty; on any other text it
    raises [UnicodeEncodeError]. *)
Theorem slice_is_encoding (s : str) :
  match encode s with
  | Ok e =>
      exists segs,
        slice s = Ok segs /\ concat segs = e /\
        Forall (fun x => x <> []) segs
  | Raise _ => slice s = Raise UnicodeEncodeError
  end.
Proof.
  destruct (encode s) as [e|x] eqn:E.
  - destruct (slice_chunks cp949_encmap s) as (chunks & segs & S & Sg & N & C).
    { apply encode_ok_iff. eauto. }
    exists segs. split; [exact S|]. split.
    + pose proof (segments_concat chunks segs Sg) as E'.
      rewrite C, E in E'. now inversion E'.
    + clear - Sg N.
      induction Sg as [|ch e chunks segs He Hs IH]; constructor.
      * inversion N; subst. destruct ch as [|c ch]; [congruence|].
        eapply encode_cons_nonempty; eauto.
      * apply IH. now inversion N.
  - destruct (slice s) as [segs|y] eqn:S.
    + apply slice_ok_encode in S. rewrite E in S. discriminate.
    + f_equal. eapply slice_raises; eauto.
Qed.

(** X6: every segment but the last has 89 or 90 bytes and encodes more
    than 44 characters of the text; the segments are the encodings of
    consecutive pieces of the text. *)
Theorem slice_segment_lengths (s : str) (segs : list bytes) :
  slice s = Ok segs ->
  exists chunks,
    segments_of chunks segs /\ concat chunks = s /\
    Forall (fun ch => 44 < len ch) (removelast chunks) /\
    Forall (fun e => len e = 89 \/ len e = 90) (removelast segs).
Proof.
  unfold _slice_tr_txtmsg. intros H.
  apply bind_ok in H. destruct H as ([popped sliced] & L & H).
  apply slice_loop_closed in L.
  destruct L as (chunks & new & -> & S & C & N & F).
  simpl in C, H. destruct popped as [|c p].
  - rewrite app_nil_r in C. injection H as <-. exists chunks.
    repeat split; auto using Forall_removelast.
  - apply bind_ok in H. destruct H as (e & He & H). injection H as <-.
    exists (chunks ++ [c :: p]). repeat split.
    + apply Forall2_app; [assumption|]. repeat constructor. assumption.
    + rewrite concat_app. simpl. now rewrite app_nil_r.
    + now rewrite removelast_last.
    + now rewrite removelast_last.
Qed.

Lemma slice_loop_short txt :
  forall popped sliced,
    (List.length (popped ++ txt) <= 44)%nat ->
    slice_loop cp949_encmap txt popped sliced = Ok (popped ++ txt, sliced).
Proof.
  induction txt as [|c txt IH]; intros popped sliced L; simpl.
  - now rewrite app_nil_r.
  - replace (popped ++ c :: txt) with ((popped ++ [c]) ++ txt) in *
      by now rewrite <- app_assoc.
    assert (S : (44 <? len (popped ++ [c])) = false).
    { apply Z.ltb_ge. unfold len. rewrite length_app in L. lia. }
    rewrite S. now apply IH.
Qed.

(** X7: a text of at most 44 characters is never cut: the slicer returns
    its encoding as the only segment, whatever the number of bytes (and
    raises when the text has no encoding); the empty text gives no
    segment. *)
Theorem slice_short_text (s : str) :
  (List.length s <= 44)%nat ->
  slice s = match s with
            | [] => Ok []
            | _ :: _ => e <- encode s ;; Ok [e]
            end.
Proof.
  intros L. unfold _slice_tr_txtmsg.
  rewrite (slice_loop_short s [] [] L). simpl.
  destruct s; reflexivity.
Qed.

Lemma total_len_removelast segs :
  Forall (fun e => len e = 89 \/ len e = 90) (removelast segs) ->
  89 * (len segs - 1) <= total_len segs.
Proof.
  induction segs as [|e segs IH]; intros F.
  - change (len (@nil bytes)) with 0. simpl. lia.
  - destruct segs as [|e' segs].
    + rewrite len_cons. change (len (@nil bytes)) with 0. simpl.
      pose proof (len_nonneg e). lia.
    + change (removelast (e :: e' :: segs))
        with (e :: removelast (e' :: segs)) in F.
      inversion F as [|x l Hx Hl]; subst. specialize (IH Hl).
      rewrite len_cons.
      change (total_len (e :: e' :: segs))
        with (len e + total_len (e' :: segs)).
      lia.
Qed.

Lemma total_len_upper segs :
  Forall (fun e => 0 < len e <= 90) segs -> total_len segs <= 90 * len segs.
Proof.
  induction 1 as [|e segs He Hs IH].
  - change (len (@nil bytes)) with 0. simpl. lia.
  - rewrite len_cons.
    change (total_len (e :: segs)) with (len e + total_len segs). lia.
Qed.

(** X8: a text of characters of one or two bytes is cut into segments of
    1 to 90 bytes each, all but the last of at least 89 bytes, so that
    [n] segments carry between [89 * (n - 1)] and [90 * n] bytes. *)
Theorem slice_narrow_segments (s : str) :
  forallb (narrow cp949_encmap) s = true ->
  exists segs,
    slice s = Ok segs /\
    Forall (fun e => 0 < len e <= 90) segs /\
    total_len segs = widths cp949_encmap s /\
    89 * (len segs - 1) <= widths cp949_encmap s <= 90 * len segs.
Proof.
  intros N.
  destruct (slice_chunks cp949_encmap s (narrow_encodable _ _ N))
    as (chunks & segs & S & Sg & _ & C).
  pose proof (slice_narrow _ _ _ N S) as F.
  pose proof (segments_total_len _ _ _ Sg) as T. rewrite C in T.
  exists segs. repeat split; auto.
  - rewrite <- T. apply total_len_removelast.
    unfold _slice_tr_txtmsg in S.
    apply bind_ok in S. destruct S as ([popped sliced] & L & H).
    apply slice_loop_closed in L.
    destruct L as (chunks' & new & -> & _ & _ & _ & F').
    simpl in H. destruct popped as [|c p].
    + injection H as <-. now apply Forall_removelast.
    + apply bind_ok in H. destruct H as (e & He & H). injection H as <-.
      now rewrite removelast_last.
  - rewrite <- T. now apply total_len_upper.
Qed.

End SlicerMore.

Lemma slice_segment_lengths_witness :
  exists chunks,
    segments_of sample_encmap chunks
      [repeat 97 89; repeat 97 89; repeat 97 22] /\
    concat chunks = repeat 97 200 /\
    Forall (fun ch => 44 < len ch) (removelast chunks) /\
    Forall (fun e => len e = 89 \/ len e = 90)
      (removelast [repeat 97 89; repeat 97 89; repeat 97 22]).
Proof.
  apply (slice_segment_lengths sample_encmap (repeat 97 200)).
  reflexivity.
Defined.

Lemma slice_short_text_witness :
  _slice_tr_txtmsg sample_encmap (repeat 0xB620 44)
  = Ok [concat (repeat [0xA4; 0xD4; 0xA4; 0xA8; 0xA4; 0xC7; 0xA4; 0xB1] 44)].
Proof.
  rewrite (slice_short_text sample_encmap (repeat 0xB620 44)).
  - reflexivity.
  - simpl. lia.
Defined.

Lemma slice_narrow_segments_witness :
  exists segs,
    _slice_tr_txtmsg sample_encmap sample_text = Ok segs /\
    Forall (fun e => 0 < len e <= 90) segs /\
    total_len segs = widths sample_encmap sample_text /\
    89 * (len segs - 1) <= widths sample_encmap sample_text <= 90 * len segs.
Proof.
  apply (slice_narrow_segments sample_encmap sample_text).
  vm_compute. reflexivity.
Defined.

(** ** More on the queue: [add] and [get] *)

Section QueueMore.

Variable nd : char -> bool.
Variable enc : char -> option Z.
Variable dec : Z -> Z -> option char.

#[local] Abbreviation encode := (euc_kr_encode enc).
#[local] Abbreviation decode := (euc_kr_decode dec).
#[local] Abbreviation slice := (_slice_tr_txtmsg enc).
#[local] Abbreviation add := (add nd enc).
#[local] Abbreviation get_items := (get_items dec).

Lemma valid_tr_to_raises s e :
  _valid_tr_to nd s = Raise e -> e = InvalidNumber s.
Proof.
  intros H. destruct (re_match (PATTERN_NUM nd) (strip s)) as [g|] eqn:R.
  - destruct (valid_tr_to_parse nd s g R) as (? & ? & ? & ? & ? & _ & V).
    rewrite V in H. discriminate.
  - unfold _valid_tr_to in H. rewrite R in H. now inversion H.
Qed.

Lemma encode_nil_inv s : encode s = Ok [] -> s = [].
Proof.
  intros H. destruct s as [|c s]; auto.
  assert (E : forallb (encodable enc) (c :: s) = true)
    by (apply encode_ok_iff; eauto).
  apply encode_len in H. simpl in H, E.
  apply andb_true_iff in E. destruct E as [E _].
  pose proof (width_pos enc c E). pose proof (widths_nonneg enc s).
  change (len (@nil Z)) with 0 in H. lia.
Qed.

Lemma len_zero {A} (l : list A) : len l = 0 -> l = [].
Proof. destruct l; auto. rewrite len_cons. pose proof (len_nonneg l). lia. Qed.

Lemma encode_fails s :
  encode s = Raise UnicodeEncodeError ->
  forallb (encodable enc) s = false.
Proof.
  intros H. destruct (forallb (encodable enc) s) eqn:E; auto.
  apply encode_ok_iff in E. destruct E as [e E]. congruence.
Qed.

Lemma add_raise_unchanged tr_to text auto_slice self self' e :
  add tr_to text auto_slice self = (Raise e, self') -> self' = self.
Proof.
  rewrite add_unfold.
  destruct (_valid_tr_to nd tr_to); [|congruence].
  destruct (encode (strip text)) as [b|]; [|congruence].
  destruct (len b =? 0); [congruence|].
  destruct (90 <? len b); [|discriminate].
  destruct (negb auto_slice); [congruence|].
  destruct (slice text); [discriminate|congruence].
Qed.

(** X9: a call of [add] that raises leaves the client as it was, and the
    exception is one of four: the one of the normaliser for this
    recipient, the codec's when a character of the text has no encoding,
    the empty-message error when the text is blank, or the too-long error
    when slicing is not allowed and the stripped text has more than 90
    bytes. *)
Theorem add_raises_unchanged tr_to text auto_slice self self' e :
  add tr_to text auto_slice self = (Raise e, self') ->
  self' = self /\
  ((e = InvalidNumber tr_to /\ _valid_tr_to nd tr_to = Raise e) \/
   (e = UnicodeEncodeError /\ forallb (encodable enc) text = false) \/
   (e = EmptyMessage /\ strip text = []) \/
   (e = MessageTooLong /\ auto_slice = false /\
    90 < widths enc (strip text))).
Proof.
  rewrite add_unfold.
  destruct (_valid_tr_to nd tr_to) as [to|e0] eqn:V.
  2:{ intros H. inversion H; subst. split; auto. left.
      split; auto. now apply valid_tr_to_raises. }
  destruct (encode (strip text)) as [b|e0] eqn:B.
  2:{ intros H. inversion H; subst. split; auto. right; left.
      pose proof (encode_raises _ _ _ B); subst. split; auto.
      apply encode_fails in B.
      destruct (forallb (encodable enc) text) eqn:T; auto.
      apply forallb_strip in T. congruence. }
  destruct (len b =? 0) eqn:Z0.
  { intros H. inversion H; subst. split; auto. right; right; left.
    split; auto. apply Z.eqb_eq, len_zero in Z0. subst.
    now apply encode_nil_inv. }
  destruct (90 <? len b) eqn:L; [|discriminate].
  destruct auto_slice; simpl.
  - destruct (slice text) as [segs|e0] eqn:S; [discriminate|].
    intros H. inversion H; subst. split; auto. right; left.
    pose proof (slice_raises _ _ _ S); subst. split; auto.
    destruct (forallb (encodable enc) text) eqn:T; auto.
    destruct (slice_chunks enc text T) as (? & ? & S' & _). congruence.
  - intros H. inversion H; subst. split; auto. right; right; right.
    repeat split. apply Z.ltb_lt in L.
    now rewrite <- (encode_len _ _ _ B).
Qed.

Lemma slice_nonempty text segs :
  slice text = Ok segs -> text <> [] -> segs <> [].
Proof.
  intros S N.
  assert (T : forallb (encodable enc) text = true).
  { apply encode_ok_iff. exists (concat segs). now apply slice_ok_encode. }
  destruct (slice_chunks enc text T) as (chunks & segs' & S' & Sg & _ & C).
  assert (segs' = segs) by congruence. subst segs'.
  intros ->. inversion Sg; subst. now simpl in N.
Qed.

(** X10: a call of [add] that returns has only appended to the queue: the
    new entries, at least one, all carry the normalised recipient, and
    their bodies joined are the encoding of the stripped text, or, when
    the text was sliced, of the text as it was given. *)
Theorem add_appends tr_to text auto_slice self self' :
  add tr_to text auto_slice self = (Ok tt, self') ->
  exists to segs,
    _valid_tr_to nd tr_to = Ok to /\
    self' = with_data self (data self ++ map (mkSMSData to) segs) /\
    segs <> [] /\
    ((segs = [concat segs] /\ encode (strip text) = Ok (concat segs)) \/
     (auto_slice = true /\ slice text = Ok segs /\
      encode text = Ok (concat segs))).
Proof.
  rewrite add_unfold.
  destruct (_valid_tr_to nd tr_to) as [to|] eqn:V; [|discriminate].
  destruct (encode (strip text)) as [b|] eqn:B; [|discriminate].
  destruct (len b =? 0) eqn:Z0; [discriminate|].
  destruct (90 <? len b) eqn:L.
  - destruct auto_slice; simpl; [|discriminate].
    destruct (slice text) as [segs|] eqn:S; [|discriminate].
    intros H. inversion H; subst. exists to, segs. repeat split.
    + apply (slice_nonempty text); auto. intros ->.
      cbv in B. inversion B; subst. discriminate.
    + right. repeat split. now apply slice_ok_encode.
  - intros H. inversion H; subst. exists to, [b].
    simpl. rewrite app_nil_r. repeat split; auto. discriminate.
Qed.

(** X11: whatever the calls of [add] a caller makes, raising or not, every
    entry of the queue stays within 1 to 90 bytes, as long as every text
    given with slicing allowed has characters of one or two bytes only. *)
Theorem run_adds_keeps_body_bound calls :
  forall self,
    Forall body_ok (data self) ->
    Forall (fun c => snd c = true ->
                     forallb (narrow enc) (snd (fst c)) = true) calls ->
    Forall body_ok (data (run_adds nd enc calls self)).
Proof.
  induction calls as [|[[tr_to text] auto_slice] calls IH];
    intros self B N; simpl; auto.
  inversion N as [|x l Hx Hl]; subst. simpl in Hx.
  apply IH; auto.
  destruct (add tr_to text auto_slice self) as [[[]|e] self'] eqn:A; simpl.
  - eapply add_keeps_body_bound; eauto.
  - apply add_raise_unchanged in A. now subst.
Qed.

Lemma get_items_app d1 d2 :
  get_items (d1 ++ d2)
  = (a <- get_items d1 ;; b <- get_items d2 ;; Ok (a ++ b)).
Proof.
  induction d1 as [|x d1 IH]; simpl.
  - now destruct (get_items d2).
  - destruct (decode (tr_txtmsg x)); simpl; auto.
    rewrite IH. destruct (get_items d1); simpl; auto.
    now destruct (get_items d2).
Qed.

Lemma get_items_segments to chunks :
  forall segs,
    segments_of enc chunks segs ->
    forallb (decodes_back enc dec) (concat chunks) = true ->
    get_items (map (mkSMSData to) segs) = Ok (map (pair to) chunks).
Proof.
  induction chunks as [|ch chunks IH]; intros segs Sg D;
    inversion Sg as [|? e ? segs' He Hs]; subst; simpl; auto.
  simpl in D. rewrite forallb_app in D.
  apply andb_true_iff in D. destruct D as [D1 D2].
  rewrite (decode_encode enc dec ch e D1 He). simpl.
  now rewrite (IH segs' Hs D2).
Qed.

(** X12: [get] after [add]: when the characters of the text decode back
    and the call of [add] returns, [get] gives what it gave before,
    followed by the new entries: the normalised recipient with pieces of
    text which joined are the stripped text, or, when the text was sliced,
    the text as it was given. *)
Theorem get_after_add tr_to text auto_slice self self' items :
  forallb (decodes_back enc dec) text = true ->
  get_items (data self) = Ok items ->
  add tr_to text auto_slice self = (Ok tt, self') ->
  exists to chunks,
    _valid_tr_to nd tr_to = Ok to /\
    fst (get dec self') = Ok (items ++ map (pair to) chunks) /\
    (chunks = [strip text] \/ (auto_slice = true /\ concat chunks = text)).
Proof.
  intros D G. rewrite add_unfold.
  destruct (_valid_tr_to nd tr_to) as [to|] eqn:V; [|discriminate].
  destruct (encode (strip text)) as [b|] eqn:B; [|discriminate].
  destruct (len b =? 0) eqn:Z0; [discriminate|].
  unfold get.
  destruct (90 <? len b) eqn:L.
  - destruct auto_slice; simpl; [|discriminate].
    destruct (slice_chunks enc text
                (forallb_decodes_back_encodable enc dec text D))
      as (chunks & segs & S & Sg & _ & C).
    rewrite S. intros H. inversion H; subst self'. clear H.
    exists to, chunks. repeat split; auto. simpl.
    rewrite get_items_app, G. simpl.
    rewrite (get_items_segments to chunks segs Sg); [reflexivity|].
    now rewrite C.
  - intros H. inversion H; subst self'. clear H.
    exists to, [strip text]. repeat split; auto. simpl.
    rewrite get_items_app, G. simpl.
    rewrite (decode_encode enc dec (strip text) b); auto.
    now apply forallb_strip.
Qed.

End QueueMore.

Lemma add_raises_unchanged_witness :
  sample_sms = sample_sms /\
  ((MessageTooLong = InvalidNumber (lit "01012345678") /\
    _valid_tr_to sample_nd (lit "01012345678") = Raise MessageTooLong) \/
   (MessageTooLong = UnicodeEncodeError /\
    forallb (encodable sample_encmap) sample_text = false) \/
   (MessageTooLong = EmptyMessage /\ strip sample_text = []) \/
   (MessageTooLong = MessageTooLong /\ false = false /\
    90 < widths sample_encmap (strip sample_text))).
Proof.
  apply (add_raises_unchanged sample_nd sample_encmap
           (lit "01012345678") sample_text false sample_sms).
  reflexivity.
Defined.

Lemma add_appends_witness :
  exists to segs,
    _valid_tr_to sample_nd (lit "01012345678") = Ok to /\
    snd (add sample_nd sample_encmap (lit "01012345678") sample_text true
           sample_sms)
    = with_data sample_sms (data sample_sms ++ map (mkSMSData to) segs) /\
    segs <> [] /\
    ((segs = [concat segs] /\
      euc_kr_encode sample_encmap (strip sample_text) = Ok (concat segs)) \/
     (true = true /\ _slice_tr_txtmsg sample_encmap sample_text = Ok segs /\
      euc_kr_encode sample_encmap sample_text = Ok (concat segs))).
Proof.
  apply (add_appends sample_nd sample_encmap
           (lit "01012345678") sample_text true sample_sms).
  reflexivity.
Defined.

Lemma run_adds_keeps_body_bound_witness :
  Forall body_ok
    (data (run_adds sample_nd sample_encmap
             [(lit "01012345678", sample_text, true);
              (lit "011", lit "hello", false);
              (lit "02012345678", lit " hello ", false);
              (lit "01012345678", repeat 97 91, false)]
             sample_sms)).
Proof.
  apply (run_adds_keeps_body_bound sample_nd sample_encmap).
  - constructor.
  - repeat constructor.
Defined.

Lemma get_after_add_witness :
  exists to chunks,
    _valid_tr_to sample_nd (lit "01012345678") = Ok to /\
    fst (get sample_decmap
           (snd (add sample_nd sample_encmap (lit "01012345678") sample_text
                   true sample_sms)))
    = Ok ([] ++ map (pair to) chunks) /\
    (chunks = [strip sample_text] \/
     (true = true /\ concat chunks = sample_text)).
Proof.
  apply (get_after_add sample_nd sample_encmap sample_decmap
           (lit "01012345678") sample_text true sample_sms).
  - vm_compute. reflexivity.
  - reflexivity.
  - reflexivity.
Defined.

(** ** More on [send], and the client from construction to sending *)

Section SendMore.

Variable nd : char -> bool.
Variable enc : char -> option Z.
Variable Net : Type.
Variable gateway : Net -> post_data -> result bytes * Net.
Variable php_loads : bytes -> result pval.

#[local] Abbreviation world := (world Net).
#[local] Abbreviation send := (send enc Net gateway php_loads).
#[local] Abbreviation send_loop := (send_loop Net gateway php_loads).
#[local] Abbreviation posts := (posts Net).
#[local] Abbreviation net := (net Net).

(** X13: a [send] that returns has emptied the queue: the next [send],
    whatever its arguments, raises the empty-queue error and posts
    nothing. *)
Theorem send_twice_raises now tr_date tr_comment (st st' : SMS * world) rs
  now' tr_date' tr_comment' :
  send now tr_date tr_comment st = (Ok rs, st') ->
  send now' tr_date' tr_comment' st' = (Raise EmptyQueue, st').
Proof.
  destruct st as [self w]. rewrite send_unfold.
  destruct (data self); [discriminate|].
  destruct (schedule now tr_date); [|discriminate].
  destruct (comment_field enc tr_comment); [|discriminate].
  destruct (send_loop _ _ _ _ _ _) as [[rs0|e] [obj w']]; [|discriminate].
  intros H. inversion H; subst. now rewrite send_unfold.
Qed.

(** X14: on a queue that is not empty, and with no scheduled time or a
    naive one at least three minutes after the current time, a comment
    given as text with a character that has no encoding makes [send]
    raise the codec's error before any POST: the client and the world are
    as before. *)
Theorem send_unencodable_comment now tr_date s self (w : world) :
  data self <> [] ->
  (forall d, tr_date = Some d ->
             exists t, d = Naive t /\ now + 180000000 <= t) ->
  forallb (encodable enc) s = false ->
  send now tr_date (CStr s) (self, w) = (Raise UnicodeEncodeError, (self, w)).
Proof.
  intros N T E. rewrite send_unfold.
  destruct (data self); [congruence|].
  assert (S : exists d, schedule now tr_date = Ok d).
  { unfold schedule. destruct tr_date as [d|]; eauto.
    destruct (T d eq_refl) as (t & -> & L).
    destruct (t <? now + 180000000) eqn:Lt; eauto.
    apply Z.ltb_lt in Lt. lia. }
  destruct S as [d ->]. simpl.
  destruct (euc_kr_encode enc s) as [e|e] eqn:C; simpl.
  - assert (forallb (encodable enc) s = true)
      by (apply encode_ok_iff; eauto).
    congruence.
  - now rewrite (encode_raises _ _ _ C).
Qed.

(** X15: however [send] ends, the client keeps its credentials, sender
    and address, and the POSTs it has made are added to the record: they
    are, in queue order, the requests of the first entries of the queue,
    one POST for each of these entries and none for the others, each
    with the client's credentials, sender and address, the recipient and
    body of its entry, and the date and comment fields of the call. *)
Theorem send_posts_from_queue now tr_date tr_comment self (w : world) r st' :
  send now tr_date tr_comment (self, w) = (r, st') ->
  with_data (fst st') (data self) = self /\
  exists log d c,
    posts (snd st') = posts w ++ log /\
    (List.length log <= List.length (data self))%nat /\
    map fst log
    = firstn (List.length log) (map (post_of self d c) (data self)) /\
    (log <> [] ->
     schedule now tr_date = Ok d /\ comment_field enc tr_comment = Ok c).
Proof.
  rewrite send_unfold.
  assert (Same : with_data self (data self) = self)
    by apply with_data_same.
  assert (Nothing : forall r0, (r0, (self, w)) = (r, st') ->
    with_data (fst st') (data self) = self /\
    exists log d c,
      posts (snd st') = posts w ++ log /\
      (List.length log <= List.length (data self))%nat /\
      map fst log
      = firstn (List.length log) (map (post_of self d c) (data self)) /\
      (log <> [] ->
       schedule now tr_date = Ok d /\ comment_field enc tr_comment = Ok c)).
  { intros r0 H. inversion H; subst. simpl. split; auto.
    exists [], DateNow, CNone. rewrite app_nil_r.
    repeat split; auto; try (simpl; lia); congruence. }
  destruct (data self) as [|x q] eqn:Q; [apply Nothing|].
  destruct (schedule now tr_date) as [d|] eqn:Sc; [|apply Nothing].
  destruct (comment_field enc tr_comment) as [c|] eqn:Cf; [|apply Nothing].
  clear Nothing.
  pose proof (send_loop_spec Net gateway php_loads self d c (x :: q)
                [] self w) as Spec.
  destruct (send_loop self d c (x :: q) [] (self, w))
    as [[rs|e] [obj w']]; intros H; inversion H; subst; clear H;
    cbn [fst snd].
  - destruct Spec as (-> & log & new & P & _ & Mp & _).
    split; [exact Same|].
    assert (Len : List.length log = List.length (x :: q)).
    { apply (f_equal (@List.length post_data)) in Mp.
      now rewrite !length_map in Mp. }
    exists log, d, c. repeat split; auto.
    + lia.
    + rewrite Len, <- (length_map (post_of self d c)), firstn_all.
      exact Mp.
  - destruct Spec as (-> & log & last & new & P & Mp & Len & _).
    split; [exact Same|].
    exists (log ++ [last]), d, c. repeat split; auto.
    + rewrite length_app. simpl in *. lia.
    + rewrite length_app. simpl List.length.
      replace (List.length log + 1)%nat with (S (List.length log)) by lia.
      exact Mp.
Qed.

(** X16: from construction to sending: a client built with or without an
    address, to which one text of 1 to 90 bytes is added for an accepted
    recipient, sends it with exactly one POST, which carries the
    credentials and sender given to the constructor, the address given or
    else the one the address service answered, the normalised recipient,
    the encoded stripped text, no date and an empty comment; when the
    gateway answers with a body that decodes, [send] returns this one
    response and the client is again as built. *)
Theorem new_add_send ip_service id key from address self0 tr_to text
  auto_slice to b now (w : world) content n' r :
  SMS_new ip_service id key from address = Ok self0 ->
  _valid_tr_to nd tr_to = Ok to ->
  euc_kr_encode enc (strip text) = Ok b ->
  0 < len b <= 90 ->
  gateway (net w)
    (mkPost id key from to b DateNow (CStr []) (tr_ip self0))
  = (Ok content, n') ->
  _decode_response php_loads content = Ok r ->
  match address with
  | Some a => tr_ip self0 = a
  | None => ip_service = Ok (tr_ip self0)
  end /\
  exists self1,
    add nd enc tr_to text auto_slice self0 = (Ok tt, self1) /\
    send now None CNone (self1, w)
    = (Ok [r],
       (self0,
        mkWorld Net n'
          (posts w ++
           [(mkPost id key from to b DateNow (CStr []) (tr_ip self0),
             Ok content)]))).
Proof.
  intros New V B L G R.
  assert (Built : exists ip0,
             self0 = mkSMS id key from ip0 [] /\
             match address with
             | Some a => ip0 = a
             | None => ip_service = Ok ip0
             end).
  { unfold SMS_new in New. destruct address as [a|].
    - inversion New; subst. eauto.
    - destruct ip_service as [a|]; [|discriminate].
      inversion New; subst. eauto. }
  destruct Built as (ip0 & -> & Ip). simpl in *. split; auto.
  eexists. split.
  - rewrite add_unfold, V, B.
    destruct (len b =? 0) eqn:Z0; [apply Z.eqb_eq in Z0; lia|].
    destruct (90 <? len b) eqn:L9; [apply Z.ltb_lt in L9; lia|].
    reflexivity.
  - rewrite send_unfold. simpl. unfold bindM, req_post. simpl.
    rewrite G. unfold lift. rewrite R. reflexivity.
Qed.

End SendMore.

Lemma send_twice_raises_witness :
  send sample_encmap nat sample_gateway sample_php_loads 7 (Some (Naive 0))
    (CStr [0x4E2D])
    (snd (send sample_encmap nat sample_gateway sample_php_loads 0 None CNone
            (sample_queue, sample_world)))
  = (Raise EmptyQueue,
     snd (send sample_encmap nat sample_gateway sample_php_loads 0 None CNone
            (sample_queue, sample_world))).
Proof.
  eapply (send_twice_raises sample_encmap nat sample_gateway sample_php_loads
            0 None CNone (sample_queue, sample_world)).
  reflexivity.
Defined.

Lemma send_unencodable_comment_witness :
  send sample_encmap nat flaky_gateway sample_php_loads 0
    (Some (Naive 180000000)) (CStr [0x1F600]) (sample_queue, sample_world)
  = (Raise UnicodeEncodeError, (sample_queue, sample_world)).
Proof.
  apply (send_unencodable_comment sample_encmap nat flaky_gateway
           sample_php_loads 0 (Some (Naive 180000000)) [0x1F600]
           sample_queue sample_world).
  - discriminate.
  - intros d H. inversion H. exists 180000000. split; [reflexivity|lia].
  - reflexivity.
Defined.

Lemma send_posts_from_queue_witness :
  with_data
    (fst (snd (send sample_encmap nat flaky_gateway sample_php_loads 0 None
                 CNone (sample_queue, sample_world))))
    (data sample_queue) = sample_queue /\
  exists log d c,
    posts nat
      (snd (snd (send sample_encmap nat flaky_gateway sample_php_loads 0 None
                   CNone (sample_queue, sample_world))))
    = posts nat sample_world ++ log /\
    (List.length log <= List.length (data sample_queue))%nat /\
    map fst log
    = firstn (List.length log)
        (map (post_of sample_queue d c) (data sample_queue)) /\
    (log <> [] ->
     schedule 0 None = Ok d /\ comment_field sample_encmap CNone = Ok c).
Proof.
  eapply (send_posts_from_queue sample_encmap nat flaky_gateway
            sample_php_loads 0 None CNone sample_queue sample_world).
  reflexivity.
Defined.

Lemma new_add_send_witness :
  match @None str with
  | Some a => tr_ip sample_sms = a
  | None => Ok (lit "127.0.0.1") = Ok (tr_ip sample_sms)
  end /\
  exists self1,
    add sample_nd sample_encmap (lit "1234 5678") (lit " hello ") true
      sample_sms = (Ok tt, self1) /\
    send sample_encmap nat sample_gateway sample_php_loads 0 None CNone
      (self1, sample_world)
    = (Ok [[(KStr (lit "result"), PStr (lit "OK"));
            (KStr (lit "cnt"), PInt 1)]],
       (sample_sms,
        mkWorld nat 1%nat
          (posts nat sample_world ++
           [(mkPost (lit "id") (lit "key") (lit "0212345678")
               (lit "010-1234-5678") (lit "hello") DateNow (CStr [])
               (tr_ip sample_sms),
             Ok sample_reply_ok)]))).
Proof.
  apply (new_add_send sample_nd sample_encmap nat sample_gateway
           sample_php_loads (Ok (lit "127.0.0.1")) (lit "id") (lit "key")
           (lit "0212345678") None sample_sms (lit "1234 5678")
           (lit " hello ") true (lit "010-1234-5678") (lit "hello") 0
           sample_world sample_reply_ok 1%nat);
    try reflexivity.
  unfold len. simpl. lia.
Defined.

(** ** [view] and [cancel] *)

Section AdminMore.

Variable Net : Type.
Variable server : Net -> request -> result bytes * Net.
Variable php_loads : bytes -> result pval.

#[local] Abbreviation gworld := (gworld Net).
#[local] Abbreviation admin := (admin Net server php_loads).
#[local] Abbreviation run_admin := (run_admin Net server php_loads).
#[local] Abbreviation requests := (requests Net).
#[local] Abbreviation request_answered := (request_answered php_loads).
#[local] Abbreviation request_failed := (request_failed php_loads).

Lemma admin_unfold c self (w : gworld) :
  admin c (self, w) =
  match server (gnet Net w) (admin_request self c) with
  | (Ok content, n) =>
      (_decode_response php_loads content,
       (self,
        mkGWorld Net n
          (requests w ++ [(admin_request self c, Ok content)])))
  | (Raise e, n) =>
      (Raise e,
       (self,
        mkGWorld Net n (requests w ++ [(admin_request self c, Raise e)])))
  end.
Proof.
  destruct c; unfold admin, view, cancel, bindM, this, post_request, lift;
    simpl; destruct (server _ _) as [[content|e] n]; reflexivity.
Qed.

(** X17: a run of [view] and [cancel] calls never changes the client;
    each call makes one POST, and the run ends at the first call that
    raises.  When the run returns, the requests recorded are the ones of
    the calls, in order: credentials and [type = 'view'] for [view],
    credentials, the time of the call plus one day and the number given
    for [cancel]; the responses returned are their decoded bodies.  When
    it raises, the request recorded last is the one of the call that
    failed: its POST raised, or its body did not decode. *)
Theorem run_admin_requests calls :
  forall self (w : gworld),
    match run_admin calls (self, w) with
    | (Ok rs, (self', w')) =>
        self' = self /\
        exists log,
          requests w' = requests w ++ log /\
          map fst log = map (admin_request self) calls /\
          Forall2 request_answered log rs
    | (Raise e, (self', w')) =>
        self' = self /\
        exists log last rs,
          requests w' = requests w ++ log ++ [last] /\
          map fst (log ++ [last])
          = firstn (S (List.length log)) (map (admin_request self) calls) /\
          (List.length log < List.length calls)%nat /\
          Forall2 request_answered log rs /\ request_failed last e
    end.
Proof.
  induction calls as [|c calls IH]; intros self w.
  - simpl. split; auto. exists []. rewrite app_nil_r. repeat split.
    constructor.
  - change (run_admin (c :: calls))
      with (r <~ admin c ;; rs <~ run_admin calls ;; ret (r :: rs)).
    unfold bindM at 1. rewrite admin_unfold.
    destruct (server (gnet Net w) (admin_request self c))
      as [[content|e] n] eqn:Sv.
    + destruct (_decode_response php_loads content) as [r|e] eqn:Dr.
      * unfold bindM.
        specialize (IH self
          (mkGWorld Net n
             (requests w ++ [(admin_request self c, Ok content)]))).
        destruct (run_admin calls _) as [[rs|e] [self' w']].
        -- destruct IH as (-> & log & Rq & Mp & An). simpl in Rq.
           unfold ret. split; auto.
           exists ((admin_request self c, Ok content) :: log).
           repeat split.
           ++ now rewrite Rq, <- app_assoc.
           ++ simpl. now rewrite Mp.
           ++ constructor; auto. exists content. auto.
        -- destruct IH as (-> & log & last & rs & Rq & Mp & Len & An & Fl).
           simpl in Rq. split; auto.
           exists ((admin_request self c, Ok content) :: log), last,
             (r :: rs).
           repeat split; auto.
           ++ now rewrite Rq, <- !app_assoc.
           ++ simpl in *. now rewrite Mp.
           ++ simpl. lia.
           ++ constructor; auto. exists content. auto.
      * split; auto.
        exists [], (admin_request self c, Ok content), [].
        repeat split; simpl; auto; try lia.
        right. exists content. auto.
    + split; auto.
      exists [], (admin_request self c, Raise e), [].
      repeat split; simpl; auto; try lia.
      now left.
Qed.

End AdminMore.

(** ** More on the response decoder *)

Ltac utf8_bounds :=
  repeat match goal with
  | H : (_ && _) = true |- _ => apply andb_true_iff in H; destruct H
  | H : in_range _ _ _ = true |- _ => unfold in_range in H
  | H : is_cont _ = true |- _ => unfold is_cont in H
  | H : (_ <=? _) = true |- _ => apply Z.leb_le in H
  | H : context [if ?a =? ?b then _ else _] |- _ =>
      destruct (Z.eqb_spec a b)
  end.

Ltac utf8_cases H :=
  repeat match type of H with
  | context [match ?x with _ => _ end] => destruct x eqn:?; try discriminate H
  end.

Lemma utf8_decode_nil b : utf8_decode b = Some [] -> b = [].
Proof.
  destruct b as [|b0 r0]; auto. simpl. unfold option_map. intros H.
  utf8_cases H.
Qed.

(** Two byte strings that decode to texts with the same first character
    start with the same bytes, the ones of this character. *)
Lemma utf8_decode_first b b' c s s' :
  utf8_decode b = Some (c :: s) ->
  utf8_decode b' = Some (c :: s') ->
  exists pre rest rest',
    b = pre ++ rest /\ b' = pre ++ rest' /\
    utf8_decode rest = Some s /\ utf8_decode rest' = Some s'.
Proof.
  destruct b as [|b0 r0]; [discriminate|].
  destruct b' as [|b0' r0']; [discriminate|].
  simpl. unfold option_map. intros H H'.
  utf8_cases H; utf8_cases H';
    injection H as Hc <-; injection H' as Hc' <-;
    utf8_bounds; subst c;
    try (exfalso; lia);
    match goal with
    | |- exists pre rest rest',
          ?x0 :: ?r = _ /\ ?y0 :: ?r' = _ /\
          utf8_decode ?t = _ /\ utf8_decode ?t' = _ =>
        idtac
    end.
  all: try (exists [b0], r0, r0'; repeat split; auto; simpl; f_equal; lia).
  all: match goal with
       | |- exists pre rest rest',
             ?x0 :: ?x1 :: ?x2 :: ?x3 :: ?r = _ /\
             ?y0 :: ?y1 :: ?y2 :: ?y3 :: ?r' = _ /\ _ =>
           assert (x0 = y0 /\ x1 = y1 /\ x2 = y2 /\ x3 = y3)
             as (-> & -> & -> & ->) by lia;
           exists [y0; y1; y2; y3], r, r'; repeat split; auto
       | |- exists pre rest rest',
             ?x0 :: ?x1 :: ?x2 :: ?r = _ /\
             ?y0 :: ?y1 :: ?y2 :: ?r' = _ /\ _ =>
           assert (x0 = y0 /\ x1 = y1 /\ x2 = y2) as (-> & -> & ->)
             by lia;
           exists [y0; y1; y2], r, r'; repeat split; auto
       | |- exists pre rest rest',
             ?x0 :: ?x1 :: ?r = _ /\ ?y0 :: ?y1 :: ?r' = _ /\ _ =>
           assert (x0 = y0 /\ x1 = y1) as [-> ->] by lia;
           exists [y0; y1], r, r'; repeat split; auto
       end.
Qed.

(** UTF-8 decoding is one-to-one: no two byte strings decode to the same
    text. *)
Lemma utf8_decode_inj s :
  forall b b',
    utf8_decode b = Some s -> utf8_decode b' = Some s -> b = b'.
Proof.
  induction s as [|c s IH]; intros b b' H H'.
  - apply utf8_decode_nil in H, H'. congruence.
  - destruct (utf8_decode_first b b' c s s H H')
      as (pre & rest & rest' & -> & -> & R & R').
    f_equal. now apply IH.
Qed.

Lemma dict_set_fresh d k v :
  ~ In k (map fst d) -> dict_set d k v = d ++ [(k, v)].
Proof.
  induction d as [|[k' v'] d IH]; simpl; intros N; auto.
  destruct (pkey_eqb k' k) eqn:E.
  - apply pkey_eqb_eq in E. tauto.
  - f_equal. apply IH. tauto.
Qed.

Lemma dict_fill_fresh items :
  forall r, NoDup (map fst (r ++ items)) -> dict_fill r items = r ++ items.
Proof.
  unfold dict_fill.
  induction items as [|[k v] items IH]; intros r N; simpl.
  - now rewrite app_nil_r.
  - assert (F : ~ In k (map fst r)).
    { rewrite map_app in N. simpl in N. apply NoDup_remove_2 in N.
      intros I. apply N, in_or_app. now left. }
    rewrite (dict_set_fresh r k v F), IH; rewrite <- app_assoc; auto.
Qed.

Lemma key_text_inj k k' :
  is_str_key k = false -> is_str_key k' = false ->
  key_decodable k = true -> key_decodable k' = true ->
  key_text k = key_text k' -> k = k'.
Proof.
  destruct k as [i|b|s], k' as [i'|b'|s']; simpl; try discriminate; auto.
  - destruct (utf8_decode b'); discriminate.
  - destruct (utf8_decode b); discriminate.
  - destruct (utf8_decode b) as [s|] eqn:U; [|discriminate].
    destruct (utf8_decode b') as [s'|] eqn:U'; [|discriminate].
    intros _ _ _ _ H. inversion H; subst.
    f_equal. eapply utf8_decode_inj; eauto.
Qed.

Lemma decode_key_not_bytes k k' :
  decode_key k = Ok k' -> is_bytes_key k' = false.
Proof.
  destruct k; simpl; intros H; try (inversion H; subst; reflexivity).
  destruct (utf8_decode b); inversion H; reflexivity.
Qed.

Lemma decode_value_not_bytes v v' :
  decode_value v = Ok v' -> is_bytes_value v' = false.
Proof.
  destruct v; simpl; intros H; try (inversion H; subst; reflexivity).
  destruct (utf8_decode b); inversion H; reflexivity.
Qed.

Lemma dict_set_no_bytes d k v :
  Forall no_bytes d ->
  is_bytes_key k = false -> is_bytes_value v = false ->
  Forall no_bytes (dict_set d k v).
Proof.
  intros F K V. induction F as [|[k' v'] d [Hk Hv] F IH]; simpl.
  - repeat constructor; auto.
  - simpl in Hk, Hv. destruct (pkey_eqb k' k); constructor; auto; split; auto.
Qed.

Lemma decode_items_no_bytes items :
  forall r r',
    Forall no_bytes r -> decode_items items r = Ok r' -> Forall no_bytes r'.
Proof.
  induction items as [|[k v] items IH]; simpl; intros r r' F H.
  - now inversion H; subst.
  - apply bind_ok in H. destruct H as (k' & K & H).
    apply bind_ok in H. destruct H as (v' & V & H).
    apply (IH _ _ (dict_set_no_bytes r k' v' F
                     (decode_key_not_bytes _ _ K)
                     (decode_value_not_bytes _ _ V)) H).
Qed.

Section DecoderMore.

Variable php_loads : bytes -> result pval.

#[local] Abbreviation _decode_response := (_decode_response php_loads).

(** X18: what the decoder returns has no [bytes] left among its keys and
    its values; the values inside a nested mapping are not looked at. *)
Theorem decode_response_no_bytes content r :
  _decode_response content = Ok r -> Forall no_bytes r.
Proof.
  unfold _decode_response. intros H.
  apply bind_ok in H. destruct H as (v & _ & H).
  destruct v; try discriminate.
  apply (decode_items_no_bytes items [] r); auto.
Qed.

(** X19: the decoder raises in three cases only: the parser raised, and
    the exception is the parser's; the parser returned a value that is
    not a mapping, and the exception is [AttributeError]; or a [bytes]
    key or value of the mapping is not valid UTF-8, and the exception is
    [UnicodeDecodeError]. *)
Theorem decode_response_raises content e :
  _decode_response content = Raise e <->
  php_loads content = Raise e \/
  (exists v,
      php_loads content = Ok v /\ (forall items, v <> PDict items) /\
      e = AttributeError) \/
  (exists items,
      php_loads content = Ok (PDict items) /\
      forallb item_decodable items = false /\ e = UnicodeDecodeError).
Proof.
  unfold _decode_response.
  destruct (php_loads content) as [v|e0]; simpl.
  - assert (Other : (forall items, v <> PDict items) ->
      (Raise AttributeError = Raise e :> result pdict) <->
      Ok v = Raise e \/
      (exists v0, Ok v = Ok v0 /\ (forall items, v0 <> PDict items) /\
                  e = AttributeError) \/
      (exists items, Ok v = Ok (PDict items) /\
                     forallb item_decodable items = false /\
                     e = UnicodeDecodeError)).
    { intros N. split.
      - intros H. inversion H; subst. right; left. eauto.
      - intros [H|[(v0 & H & _ & ->)|(items & H & _)]]; auto.
        + discriminate.
        + inversion H; subst. now destruct (N items). }
    destruct v; try (apply Other; discriminate). clear Other.
    destruct (forallb item_decodable items) eqn:Dc.
    + rewrite (decode_items_ok items [] Dc). split; [discriminate|].
      intros [H|[(v0 & H & N & _)|(items' & H & F & _)]].
      * discriminate.
      * inversion H; subst. now destruct (N items).
      * inversion H; subst. congruence.
    + rewrite (decode_items_raises items [] Dc). split.
      * intros H. inversion H; subst. right; right. eauto.
      * intros [H|[(v0 & H & N & _)|(items' & H & F & ->)]]; auto.
        -- discriminate.
        -- inversion H; subst. now destruct (N items).
  - split.
    + intros H. inversion H; subst. now left.
    + intros [H|[(v0 & H & _)|(items & H & _)]];
        try discriminate. now inversion H.
Qed.

Lemma map_fst_item_text items :
  map fst (map item_text items) = map key_text (map fst items).
Proof. rewrite !map_map. reflexivity. Qed.

(** X20: when the parser returns a mapping, with no [str] among its keys
    and no key twice, no entry is lost or merged: what the decoder
    returns has the items of the mapping in their order, each with its
    [bytes] key and value as text. *)
Theorem decode_response_keeps_items content items r :
  php_loads content = Ok (PDict items) ->
  forallb (fun kv => negb (is_str_key (fst kv))) items = true ->
  NoDup (map fst items) ->
  _decode_response content = Ok r ->
  r = map item_text items.
Proof.
  intros P S N. unfold _decode_response. rewrite P. simpl.
  destruct (forallb item_decodable items) eqn:Dc.
  2:{ rewrite (decode_items_raises items [] Dc). discriminate. }
  rewrite (decode_items_ok items [] Dc). intros H. inversion H; subst.
  clear H. apply (dict_fill_fresh (map item_text items) []). simpl.
  rewrite map_fst_item_text.
  apply NoDup_map_NoDup_ForallPairs; auto.
  intros k k' I I' T.
  apply in_map_iff in I, I'.
  destruct I as ([k0 v] & <- & I), I' as ([k1 v'] & <- & I').
  rewrite forallb_forall in S, Dc.
  pose proof (S _ I) as S0. pose proof (S _ I') as S1.
  pose proof (Dc _ I) as D0. pose proof (Dc _ I') as D1.
  unfold item_decodable in D0, D1. simpl in *.
  apply andb_true_iff in D0, D1.
  apply negb_true_iff in S0, S1.
  apply key_text_inj; tauto.
Qed.

End DecoderMore.

Lemma decode_response_no_bytes_witness :
  Forall no_bytes
    [(KStr (lit "result"), PStr (lit "OK")); (KStr (lit "cnt"), PInt 1)].
Proof.
  apply (decode_response_no_bytes sample_php_loads sample_reply_ok).
  reflexivity.
Defined.

Lemma decode_response_keeps_items_witness :
  [(KStr (lit "result"), PStr (lit "OK")); (KStr (lit "cnt"), PInt 1)]
  = map item_text
      [(KBytes (lit "result"), PBytes (lit "OK"));
       (KBytes (lit "cnt"), PInt 1)].
Proof.
  apply (decode_response_keeps_items sample_php_loads sample_reply_ok).
  - reflexivity.
  - reflexivity.
  - repeat constructor; simpl; intuition discriminate.
  - reflexivity.
Defined.
